(** * Dynamic call-graph builder (antara_cfg_builder.py)

    A shallow embedding of [CFGBuilder._calltrace_to_callgraph] and
    [CFGBuilder.graph_to_adjacency_matrix], together with the parts of
    pandas (groupby / size / reset_index), networkx (DiGraph,
    from_pandas_edgelist, adjacency_matrix) and scipy (coo_matrix) that
    these two static methods call.  [get_dynamic_call_graph], which runs
    the instrumented binary and reads [callgraph.csv], is the caller that
    supplies the trace frame with the columns [source] and [target]; it
    is not modelled. *)

From Stdlib Require Import String Ascii List ZArith Lia Bool Arith.
From Stdlib Require Import Permutation Sorted.
Import ListNotations.

Local Open Scope string_scope.
Local Open Scope Z_scope.

(** ** Python values: exceptions and insertion-ordered dicts *)

(** The only exception that the two methods can surface on the inputs
    modelled here is networkx's [NetworkXError]. *)
Inductive exn : Type :=
| NetworkXError (msg : string).

Inductive result (A : Type) : Type :=
| Ok (a : A)
| Raise (e : exn).
Arguments Ok {A} a.
Arguments Raise {A} e.

Definition is_ok {A : Type} (r : result A) : bool :=
  match r with Ok _ => true | Raise _ => false end.

(** A Python [dict] keeps its keys in insertion order; assigning to an
    existing key keeps the key's position and replaces the value. *)
Abbreviation dict K V := (list (K * V)) (only parsing).

Section Dict.
Context {K V : Type}.
Variable eqb : K -> K -> bool.

Fixpoint dict_get (k : K) (d : dict K V) : option V :=
  match d with
  | [] => None
  | (k', v) :: d' => if eqb k k' then Some v else dict_get k d'
  end.

Definition dict_mem (k : K) (d : dict K V) : bool :=
  match dict_get k d with Some _ => true | None => false end.

Fixpoint dict_set (k : K) (v : V) (d : dict K V) : dict K V :=
  match d with
  | [] => [(k, v)]
  | (k', v') :: d' =>
      if eqb k k' then (k', v) :: d' else (k', v') :: dict_set k v d'
  end.

Definition dict_get_default (k : K) (dflt : V) (d : dict K V) : V :=
  match dict_get k d with Some v => v | None => dflt end.

Definition keys (d : dict K V) : list K := map fst d.
End Dict.

(** ** The call trace as a pandas DataFrame *)

(** Node identifiers are the tokens read from the trace file. *)
Abbreviation NodeId := string (only parsing).

(** A field of the frame: [None] is pandas' missing value (NaN), which is
    what [read_csv] stores for a field that is absent from a row. *)
Definition field : Type := option NodeId.

(** One row of the frame with columns [source] and [target]. *)
Definition row : Type := (field * field)%type.
Definition DataFrame : Type := list row.

Definition CallRecord : Type := (NodeId * NodeId)%type.
Definition WeightedEdge : Type := (NodeId * NodeId * Z)%type.

(** The frame holding a sequence of well-formed call records. *)
Definition to_frame (records : list CallRecord) : DataFrame :=
  map (fun r => (Some (fst r), Some (snd r))) records.

Definition key_eqb (a b : CallRecord) : bool :=
  String.eqb (fst a) (fst b) && String.eqb (snd a) (snd b).

(** [groupby] (default [dropna=True]) leaves out every row with
    a missing value in one of the key columns. *)
Definition dropna (df : DataFrame) : list CallRecord :=
  flat_map (fun r =>
              match r with
              | (Some s, Some t) => [(s, t)]
              | _ => []
              end) df.

(** Group sizes: each key is looked up among the groups found so far;
    its size is incremented, or a new group of size 1 is opened.  Sizes
    are int64 in pandas; a frame cannot hold 2^63 rows, so they never
    wrap around and are integers here. *)
Fixpoint tally (k : CallRecord) (groups : dict CallRecord Z)
  : dict CallRecord Z :=
  match groups with
  | [] => [(k, 1)]
  | (k', c) :: groups' =>
      if key_eqb k k' then (k', c + 1) :: groups'
      else (k', c) :: tally k groups'
  end.

Definition group_sizes (ks : list CallRecord) : dict CallRecord Z :=
  fold_left (fun groups k => tally k groups) ks [].

(** [groupby] (default [sort=True]) orders the groups by key, the key
    columns compared lexicographically.  The frame modelled here is the
    one [get_dynamic_call_graph] builds: its columns are [source] and
    [target], in this order, and its cells are strings.  On a frame with
    the columns in another order, or with numeric cells, pandas orders
    the groups differently; the keys and the sizes are the same. *)
Definition key_leb (a b : CallRecord) : bool :=
  match String.compare (fst a) (fst b) with
  | Lt => true
  | Gt => false
  | Eq => String.leb (snd a) (snd b)
  end.

Fixpoint insert_group (g : CallRecord * Z) (gs : list (CallRecord * Z))
  : list (CallRecord * Z) :=
  match gs with
  | [] => [g]
  | h :: gs' =>
      if key_leb (fst g) (fst h) then g :: gs else h :: insert_group g gs'
  end.

Definition sort_groups (gs : list (CallRecord * Z)) : list (CallRecord * Z) :=
  fold_right insert_group [] gs.

(** [trace_df.groupby(trace_df.columns.tolist()).size()] *)
Definition groupby_size (df : DataFrame) : dict CallRecord Z :=
  sort_groups (group_sizes (dropna df)).

(** [.reset_index().rename(columns={0: 'label'})]: one row
    (source, target, label) per group. *)
Definition reset_index (sizes : dict CallRecord Z)
  : list WeightedEdge :=
  map (fun g => (fst (fst g), snd (fst g), snd g)) sizes.

(** The frame [grouped] of [_calltrace_to_callgraph]. *)
Definition aggregate (df : DataFrame) : list WeightedEdge :=
  reset_index (groupby_size df).

Definition edge_key (e : WeightedEdge) : CallRecord := fst e.
Definition edge_weight (e : WeightedEdge) : Z := snd e.

Definition sum_weights (es : list WeightedEdge) : Z :=
  fold_right (fun e acc => edge_weight e + acc) 0 es.

(** ** networkx: the directed graph *)

(** The attribute dict of one edge, and the adjacency dict of one node
    (successor -> edge attributes). *)
Abbreviation attrs := (dict string Z) (only parsing).
Abbreviation adjlist := (dict NodeId attrs) (only parsing).

(** [nx.DiGraph]: [_node] holds the nodes in insertion order (their
    attribute dicts are never read or written here and are left out),
    [_succ] (alias [_adj]) maps each node to its adjacency dict.  [_pred]
    mirrors [_succ] with the same attribute dicts and is read by neither
    method. *)
Record DiGraph : Type := mkDiGraph {
  _node : list NodeId;
  _succ : dict NodeId adjlist
}.

Definition empty_graph : DiGraph := mkDiGraph [] [].

(** [self._node[u] = {}] on the ordered key list. *)
Definition node_set (u : NodeId) (ns : list NodeId) : list NodeId :=
  if existsb (String.eqb u) ns then ns else ns ++ [u].

(** The [if u not in self._succ: ...] block of [add_edge]. *)
Definition touch_node (u : NodeId) (G : DiGraph) : DiGraph :=
  if dict_mem String.eqb u (_succ G) then G
  else mkDiGraph (node_set u (_node G)) (dict_set String.eqb u [] (_succ G)).

(** [G._adj[u]] for a node [u] of the graph. *)
Definition adj_of (u : NodeId) (G : DiGraph) : adjlist :=
  dict_get_default String.eqb u [] (_succ G).

(** [self._succ[u][v] = datadict] *)
Definition set_edge_data (u v : NodeId) (datadict : attrs) (G : DiGraph)
  : DiGraph :=
  mkDiGraph (_node G)
    (dict_set String.eqb u (dict_set String.eqb v datadict (adj_of u G))
       (_succ G)).

(** [DiGraph.add_edge(u, v)] without attributes. *)
Definition add_edge (u v : NodeId) (G : DiGraph) : DiGraph :=
  let G1 := touch_node u G in
  let G2 := touch_node v G1 in
  let datadict := dict_get_default String.eqb v [] (adj_of u G2) in
  set_edge_data u v datadict G2.

(** [g[s][t].update(kvs)]: the attribute dict of the edge is updated in
    place. *)
Definition update_edge (s t : NodeId) (kvs : list (string * Z)) (G : DiGraph)
  : DiGraph :=
  let datadict := dict_get_default String.eqb t [] (adj_of s G) in
  let datadict' :=
    fold_left (fun d kv => dict_set String.eqb (fst kv) (snd kv) d) kvs datadict in
  set_edge_data s t datadict' G.

(** The columns of the frame [grouped]. *)
Definition grouped_columns : list string := ["source"; "target"; "label"].

(** The loop of [from_pandas_edgelist] over the rows of the frame. *)
Definition populate (attr_col_headings : list string) (df : list WeightedEdge)
  (g : DiGraph) : DiGraph :=
  fold_left
    (fun g e =>
       let s := fst (fst e) in
       let t := snd (fst e) in
       let attr_values := [snd e] in
       update_edge s t (combine attr_col_headings attr_values) (add_edge s t g))
    df g.

(** [nx.from_pandas_edgelist(df, edge_attr=True, create_using=nx.DiGraph())]
    on a frame with the columns [grouped_columns]. *)
Definition from_pandas_edgelist (df : list WeightedEdge) : result DiGraph :=
  let g := empty_graph in
  let reserved_columns := ["source"; "target"] in
  let attr_col_headings :=
    filter (fun c => negb (existsb (String.eqb c) reserved_columns))
      grouped_columns in
  if Nat.eqb (length attr_col_headings) 0 then
    Raise (NetworkXError "Invalid edge_attr argument: No columns found")
  else Ok (populate attr_col_headings df g).

Definition _calltrace_to_callgraph (trace_df : DataFrame) : result DiGraph :=
  let grouped := aggregate trace_df in
  from_pandas_edgelist grouped.

(** ** networkx and scipy: the adjacency matrix *)

(** [scipy.sparse.coo_matrix((data, (row, col)), shape)]: a list of
    (row, col, value) coefficients; coefficients at the same position
    add up. *)
Record coo_matrix : Type := mkCoo {
  shape : (nat * nat)%type;
  coefficients : list (nat * nat * Z)
}.

Definition cell (M : coo_matrix) (i j : nat) : Z :=
  fold_right
    (fun c acc =>
       if Nat.eqb (fst (fst c)) i && Nat.eqb (snd (fst c)) j
       then snd c + acc else acc)
    0 (coefficients M).

(** [G.edges(nbunch, data=True)]: for each node of [nbunch] that is in
    the graph, its out-edges with their attribute dicts. *)
Definition edges_data (G : DiGraph) (nbunch : list NodeId)
  : list (NodeId * NodeId * attrs) :=
  flat_map
    (fun n =>
       match dict_get String.eqb n (_succ G) with
       | Some nbrs => map (fun p => (n, fst p, snd p)) nbrs
       | None => []
       end)
    nbunch.

(** The labels a 64-bit signed integer array can hold. *)
Definition fits_int64 (w : Z) : Prop := - 2 ^ 63 <= w < 2 ^ 63.

(** [d.get(weight, 1)]; [weight=None] is never a key of [d]. *)
Definition edge_value (weight : option string) (d : attrs) : Z :=
  match weight with
  | Some w => dict_get_default String.eqb w 1 d
  | None => 1
  end.

(** [dict(zip(nodelist, range(nlen)))] *)
Definition node_index (nodelist : list NodeId) : dict NodeId nat :=
  fold_left (fun d p => dict_set String.eqb (fst p) (snd p) d)
    (combine nodelist (seq 0 (length nodelist))) [].

(** One element of the generator of coefficients:
    [(index[u], index[v], d.get(weight, 1))] for an edge (u, v, d)
    [if u in index and v in index]. *)
Definition coefficient (index : dict NodeId nat) (weight : option string)
  (e : NodeId * NodeId * attrs) : list (nat * nat * Z) :=
  let u := fst (fst e) in
  let v := snd (fst e) in
  let d := snd e in
  match dict_get String.eqb u index, dict_get String.eqb v index with
  | Some i, Some j => [(i, j, edge_value weight d)]
  | _, _ => []
  end.

(** [nx.to_scipy_sparse_matrix(G, nodelist=None, weight=weight)] for a
    directed graph: [nodelist = list(G)], the guard
    [if nlen == 0: raise nx.NetworkXError("Graph has no nodes or edges")],
    the index, the coefficients and the [coo_matrix] of shape
    (nlen, nlen).  The conversion to CSR format that follows adds up
    coefficients at equal positions, as [cell] does.  The coefficients
    are stored in a 64-bit integer array: scipy rejects a label that
    does not fit ([fits_int64]) with a ValueError, which is not modelled;
    statements about frames supplied by a caller are made for labels
    that fit. *)
Definition to_scipy_sparse_matrix (G : DiGraph) (weight : option string)
  : result coo_matrix :=
  let nodelist := _node G in
  let nlen := List.length nodelist in
  if Nat.eqb nlen 0 then Raise (NetworkXError "Graph has no nodes or edges")
  else
    let index := node_index nodelist in
    let coefficients :=
      flat_map (coefficient index weight) (edges_data G nodelist) in
    Ok (mkCoo (nlen, nlen) coefficients).

(** Methods that receive the graph object: they return their result
    together with the graph as they leave it. *)
Definition GraphM (A : Type) : Type := DiGraph -> (result A * DiGraph)%type.

Definition ret {A : Type} (a : A) : GraphM A := fun G => (Ok a, G).

Definition bind {A B : Type} (m : GraphM A) (k : A -> GraphM B) : GraphM B :=
  fun G =>
    match m G with
    | (Ok a, G') => k a G'
    | (Raise e, G') => (Raise e, G')
    end.

Notation "x <- m ;; k" := (bind m (fun x => k))
  (at level 61, m at next level, right associativity).

(** [G.nodes()] *)
Definition nodes : GraphM (list NodeId) := fun G => (Ok (_node G), G).

(** [nx.linalg.graphmatrix.adjacency_matrix(G, weight=weight)] *)
Definition adjacency_matrix (weight : option string) : GraphM coo_matrix :=
  fun G => (to_scipy_sparse_matrix G weight, G).

Definition graph_to_adjacency_matrix (use_weights : bool)
  : GraphM (list NodeId * coo_matrix) :=
  ns <- nodes ;;
  let node_list := ns in
  adj_mtx <- (if use_weights then adjacency_matrix (Some "label")
              else adjacency_matrix None) ;;
  ret (node_list, adj_mtx).

(** The sum of all cells of a matrix of the given shape. *)
Definition Zsum {A : Type} (f : A -> Z) (l : list A) : Z :=
  fold_right (fun x acc => f x + acc) 0 l.

Definition row_sum (M : coo_matrix) (i : nat) : Z :=
  Zsum (cell M i) (seq 0 (snd (shape M))).

Definition matrix_sum (M : coo_matrix) : Z :=
  Zsum (row_sum M) (seq 0 (fst (shape M))).

(** The attribute dict of the edge [u -> v], if the edge is present. *)
Definition edge_data (G : DiGraph) (u v : NodeId) : option attrs :=
  match dict_get String.eqb u (_succ G) with
  | Some nbrs => dict_get String.eqb v nbrs
  | None => None
  end.

Definition number_of_nodes (G : DiGraph) : nat := length (_node G).

Definition edges (G : DiGraph) : list (NodeId * NodeId * attrs) :=
  edges_data G (_node G).

Definition number_of_edges (G : DiGraph) : nat := length (edges G).

(** The representation invariant of a [DiGraph]: [_node] and [_succ]
    have the same keys in the same order, no key twice, and every
    adjacency dict has distinct keys, all of them nodes. *)
Definition wf (G : DiGraph) : Prop :=
  keys (_succ G) = _node G
  /\ NoDup (_node G)
  /\ forall u nbrs,
      dict_get String.eqb u (_succ G) = Some nbrs ->
      NoDup (keys nbrs) /\ forall v, In v (keys nbrs) -> In v (_node G).

(** Decidable equality on records and rows, to count occurrences. *)
Definition record_eq_dec (a b : CallRecord) : {a = b} + {a <> b}.
Proof. repeat decide equality. Defined.

Definition row_eq_dec (a b : row) : {a = b} + {a <> b}.
Proof. repeat decide equality. Defined.

(** The number of rows of the frame that hold exactly the pair [(s, t)]. *)
Definition occurrences (s t : NodeId) (df : DataFrame) : nat :=
  count_occ row_eq_dec df (Some s, Some t).

Definition sum_sizes (gs : dict CallRecord Z) : Z :=
  fold_right (fun g acc => snd g + acc) 0 gs.

(** Column sums of a matrix, and the calls of a trace by caller and by
    callee (complete rows only). *)
Definition col_sum (M : coo_matrix) (j : nat) : Z :=
  Zsum (fun i => cell M i j) (seq 0 (fst (shape M))).

Definition calls_from (s : NodeId) (df : DataFrame) : nat :=
  List.length (filter (fun r => String.eqb (fst r) s) (dropna df)).

Definition calls_to (t : NodeId) (df : DataFrame) : nat :=
  List.length (filter (fun r => String.eqb (snd r) t) (dropna df)).

(** ** The builder object and its host *)

(** The fields set by [CFGBuilder.__init__]. *)
Record CFGBuilder : Type := mkCFGBuilder {
  binary_path : string;
  test_input_path : string;
  prj_name : string
}.

Definition __init__ (binary_path test_input_path project_name : string)
  : CFGBuilder :=
  mkCFGBuilder binary_path test_input_path project_name.

Definition __enter__ (self : CFGBuilder) : CFGBuilder := self.

(** What [get_dynamic_call_graph] asks of its host: [Path.exists],
    the listing [test_input_path.glob("*")] (taken when the loop starts),
    [subprocess.run([binary, flags, input])] with its output discarded,
    which may raise, and [pd.read_csv(name)], which returns the frame
    with the columns [source] and [target] or raises. *)
Record Host : Type := mkHost {
  World : Type;
  host_exn : Type;
  path_exists : World -> string -> bool;
  glob_star : World -> string -> list string;
  subprocess_run : World -> string -> string -> string
                   -> (option host_exn * World)%type;
  read_csv : World -> string -> (host_exn + DataFrame)%type
}.

Inductive py_exn (E : Type) : Type :=
| AssertionError (msg : string)
| HostError (e : E)
| GraphError (e : exn).
Arguments AssertionError {E} msg.
Arguments HostError {E} e.
Arguments GraphError {E} e.

Inductive outcome (E A : Type) : Type :=
| Return (a : A)
| Throw (e : py_exn E).
Arguments Return {E A} a.
Arguments Throw {E A} e.

(** [enumerate(xs)] *)
Definition enumerate {A : Type} (xs : list A) : list (nat * A) :=
  combine (seq 0 (List.length xs)) xs.

(** The loop of [get_dynamic_call_graph] over the numbered test inputs:
    every input but the one numbered [seed_id] is skipped; for that one
    the binary is run and the trace it left in [callgraph.csv] is
    appended to [call_trace_df]. *)
Fixpoint run_inputs (h : Host) (binary opt_flags : string) (seed_id : Z)
  (items : list (nat * string)) (call_trace_df : DataFrame) (w : World h)
  : (outcome (host_exn h) DataFrame * World h)%type :=
  match items with
  | [] => (Return call_trace_df, w)
  | (input_num, test_input) :: items' =>
      if negb (Z.eqb (Z.of_nat input_num) seed_id) then
        run_inputs h binary opt_flags seed_id items' call_trace_df w
      else
        match subprocess_run h w binary opt_flags test_input with
        | (Some e, w') => (Throw (HostError e), w')
        | (None, w') =>
            match read_csv h w' "callgraph.csv" with
            | inl e => (Throw (HostError e), w')
            | inr call_trace =>
                run_inputs h binary opt_flags seed_id items'
                  (call_trace_df ++ call_trace)%list w'
            end
        end
  end.

Definition get_dynamic_call_graph (h : Host) (self : CFGBuilder)
  (opt_flags : string) (seed_id : Z) (w : World h)
  : (outcome (host_exn h) DiGraph * World h)%type :=
  let binary_path := binary_path self in
  let test_input_path := test_input_path self in
  if negb (path_exists h w binary_path) then
    (Throw (AssertionError "Binary path does not exist."), w)
  else if negb (path_exists h w test_input_path) then
    (Throw (AssertionError "Test inputs path does not exist."), w)
  else
    let call_trace_df := [] in
    match run_inputs h binary_path opt_flags seed_id
            (enumerate (glob_star h w test_input_path)) call_trace_df w with
    | (Return call_trace_df, w') =>
        (match _calltrace_to_callgraph call_trace_df with
         | Ok G => Return G
         | Raise e => Throw (GraphError e)
         end, w')
    | (Throw e, w') => (Throw e, w')
    end.

(** A small host for examples: the world is the list of inputs the binary
    was run on, latest first; each run leaves a two-row trace. *)
Definition example_host : Host :=
  mkHost (list string) unit
    (fun _ _ => true)
    (fun _ _ => ["inputs/a"; "inputs/b"])
    (fun w _ _ input => (None, input :: w))
    (fun w _ =>
       match w with
       | [] => inl tt
       | _ => inr [(Some "main", Some "f"); (Some "main", Some "f")]
       end).

(** ** Cleaning up the working directory *)

(** The entries of the working directory, by name.  A symbolic link
    records whether the path it points to exists.  [protected] stands
    for every reason the operating system has to refuse the removal of
    the entry: a directory without write permission, an immutable file, a
    read-only file system. *)
Inductive entry_kind : Type :=
| RegularFile
| Directory
| Symlink (target_exists : bool).

Record entry : Type := mkEntry {
  kind : entry_kind;
  protected : bool
}.

Definition FS : Type := list (string * entry).

Inductive os_error : Type :=
| FileNotFoundError (path : string)
| IsADirectoryError (path : string)
| PermissionError (path : string).

(** [Path(f).exists()] follows symbolic links. *)
Definition entry_exists (e : entry) : bool :=
  match kind e with
  | Symlink target_exists => target_exists
  | _ => true
  end.

Definition fs_exists (f : string) (fs : FS) : bool :=
  match dict_get String.eqb f fs with
  | Some e => entry_exists e
  | None => false
  end.

(** [os.remove(f)]: removes a regular file or a symbolic link (the link
    itself); raises on a missing path, on a directory and when the
    operating system refuses the removal. *)
Definition os_remove (f : string) (fs : FS) : (os_error + FS)%type :=
  match dict_get String.eqb f fs with
  | None => inl (FileNotFoundError f)
  | Some e =>
      match kind e with
      | Directory => inl (IsADirectoryError f)
      | _ =>
          if protected e then inl (PermissionError f)
          else inr (filter (fun p => negb (String.eqb (fst p) f)) fs)
      end
  end.

Definition files_to_clean_up : list string :=
  ["callgraph.csv"; "callgraph.dot"; "out_data.dot"; "outfile.pdf";
   "plotgraph.png"].

(** The loop of [__exit__]; the result is the exception that left the
    loop, if any, and the directory as the loop left it. *)
Fixpoint clean_up (files : list string) (fs : FS)
  : (option os_error * FS)%type :=
  match files with
  | [] => (None, fs)
  | f :: files' =>
      if fs_exists f fs then
        match os_remove f fs with
        | inl e => (Some e, fs)
        | inr fs' => clean_up files' fs'
        end
      else clean_up files' fs
  end.

Definition __exit__ (self : CFGBuilder) (fs : FS) : (option os_error * FS)%type :=
  clean_up files_to_clean_up fs.

(** An entry that [os.remove] removes. *)
Definition removable (e : entry) : bool :=
  match kind e with
  | Directory => false
  | _ => negb (protected e)
  end.

(** * Properties *)

(** ** Dicts *)

Section DictFacts.
Context {K V : Type}.
Variable eqb : K -> K -> bool.
Hypothesis eqb_spec : forall a b, eqb a b = true <-> a = b.

Lemma eqb_refl' : forall a, eqb a a = true.
Proof. intro a. apply eqb_spec. reflexivity. Qed.

Lemma eqb_false_iff : forall a b, eqb a b = false <-> a <> b.
Proof.
  intros a b. split.
  - intros H E. apply eqb_spec in E. congruence.
  - intro H. destruct (eqb a b) eqn:E; [ | reflexivity ].
    apply eqb_spec in E. contradiction.
Qed.

Lemma dict_get_None : forall k (d : dict K V),
  dict_get eqb k d = None <-> ~ In k (keys d).
Proof.
  intros k d. induction d as [ | [k' v] d IH ]; simpl.
  - tauto.
  - destruct (eqb k k') eqn:E.
    + apply eqb_spec in E. subst. split; [ discriminate | intro H; tauto ].
    + apply eqb_false_iff in E. rewrite IH. split.
      * intros H [H1 | H1]; [ congruence | tauto ].
      * tauto.
Qed.

Lemma dict_get_In : forall k v (d : dict K V),
  dict_get eqb k d = Some v -> In (k, v) d.
Proof.
  intros k v d. induction d as [ | [k' v'] d IH ]; simpl.
  - discriminate.
  - destruct (eqb k k') eqn:E.
    + apply eqb_spec in E. intro H. left. congruence.
    + intro H. right. auto.
Qed.

Lemma In_dict_get : forall k v (d : dict K V),
  NoDup (keys d) -> In (k, v) d -> dict_get eqb k d = Some v.
Proof.
  intros k v d. induction d as [ | [k' v'] d IH ]; simpl.
  - tauto.
  - intros ND [H | H].
    + inversion H; subst. rewrite eqb_refl'. reflexivity.
    + inversion ND as [ | ? ? Hnotin ND' ]; subst.
      destruct (eqb k k') eqn:E.
      * apply eqb_spec in E. subst. exfalso. apply Hnotin.
        change k' with (fst (k', v)). apply in_map. exact H.
      * auto.
Qed.

Lemma dict_set_keys_mem : forall k v (d : dict K V),
  In k (keys d) -> keys (dict_set eqb k v d) = keys d.
Proof.
  intros k v d. induction d as [ | [k' v'] d IH ]; simpl.
  - tauto.
  - intro H. destruct (eqb k k') eqn:E; simpl.
    + reflexivity.
    + apply eqb_false_iff in E. f_equal. apply IH.
      destruct H; [ congruence | assumption ].
Qed.

Lemma dict_set_absent : forall k v (d : dict K V),
  ~ In k (keys d) -> dict_set eqb k v d = (d ++ [(k, v)])%list.
Proof.
  intros k v d. induction d as [ | [k' v'] d IH ]; simpl.
  - reflexivity.
  - intro H. destruct (eqb k k') eqn:E.
    + apply eqb_spec in E. subst. tauto.
    + f_equal. apply IH. tauto.
Qed.

Lemma dict_get_set_same : forall k v (d : dict K V),
  dict_get eqb k (dict_set eqb k v d) = Some v.
Proof.
  intros k v d. induction d as [ | [k' v'] d IH ]; simpl.
  - rewrite eqb_refl'. reflexivity.
  - destruct (eqb k k') eqn:E; simpl; rewrite E; auto.
Qed.

Lemma dict_get_set_other : forall k k' v (d : dict K V),
  k' <> k -> dict_get eqb k' (dict_set eqb k v d) = dict_get eqb k' d.
Proof.
  intros k k' v d Hne. induction d as [ | [k0 v0] d IH ]; simpl.
  - apply eqb_false_iff in Hne. rewrite Hne. reflexivity.
  - destruct (eqb k k0) eqn:E; simpl.
    + apply eqb_spec in E. subst k0.
      apply eqb_false_iff in Hne. rewrite Hne. reflexivity.
    + rewrite IH. reflexivity.
Qed.

End DictFacts.

Lemma string_eqb_iff : forall a b : string, String.eqb a b = true <-> a = b.
Proof. exact String.eqb_eq. Qed.

Lemma key_eqb_iff : forall a b : CallRecord, key_eqb a b = true <-> a = b.
Proof.
  intros [s1 t1] [s2 t2]. unfold key_eqb. simpl.
  rewrite andb_true_iff, !String.eqb_eq. split.
  - intros [H1 H2]. congruence.
  - intro H. inversion H. auto.
Qed.

(** ** Group sizes *)

Lemma tally_keys : forall k gs k',
  In k' (keys (tally k gs)) <-> k' = k \/ In k' (keys gs).
Proof.
  intros k gs k'. induction gs as [ | [k0 c] gs IH ]; simpl.
  - intuition congruence.
  - destruct (key_eqb k k0) eqn:E; simpl.
    + apply key_eqb_iff in E. subst. intuition congruence.
    + rewrite IH. tauto.
Qed.

Lemma tally_NoDup : forall k gs, NoDup (keys gs) -> NoDup (keys (tally k gs)).
Proof.
  intros k gs. induction gs as [ | [k0 c] gs IH ]; simpl; intro ND.
  - constructor; [ simpl; tauto | constructor ].
  - destruct (key_eqb k k0) eqn:E; simpl.
    + exact ND.
    + inversion ND as [ | ? ? Hnotin ND' ]; subst. constructor.
      * intro H. apply tally_keys in H. destruct H as [H | H].
        -- subst. rewrite (proj2 (key_eqb_iff k k) eq_refl) in E. discriminate.
        -- contradiction.
      * auto.
Qed.

Lemma tally_get_same : forall k gs,
  dict_get key_eqb k (tally k gs)
  = Some (dict_get_default key_eqb k 0 gs + 1).
Proof.
  intros k gs. unfold dict_get_default.
  induction gs as [ | [k0 c] gs IH ]; simpl.
  - rewrite (proj2 (key_eqb_iff k k) eq_refl). reflexivity.
  - destruct (key_eqb k k0) eqn:E; simpl; rewrite E; auto.
Qed.

Lemma tally_get_other : forall k k' gs,
  k' <> k -> dict_get key_eqb k' (tally k gs) = dict_get key_eqb k' gs.
Proof.
  intros k k' gs Hne.
  assert (Hf : key_eqb k' k = false).
  { apply (eqb_false_iff key_eqb key_eqb_iff). exact Hne. }
  induction gs as [ | [k0 c] gs IH ]; simpl.
  - rewrite Hf. reflexivity.
  - destruct (key_eqb k k0) eqn:E; simpl.
    + apply key_eqb_iff in E. subst k0. rewrite Hf. reflexivity.
    + rewrite IH. reflexivity.
Qed.

Lemma tally_sum : forall k gs, sum_sizes (tally k gs) = sum_sizes gs + 1.
Proof.
  intros k gs. induction gs as [ | [k0 c] gs IH ]; simpl.
  - reflexivity.
  - destruct (key_eqb k k0); simpl; lia.
Qed.

Lemma tally_positive : forall k gs,
  Forall (fun g => 1 <= snd g) gs -> Forall (fun g => 1 <= snd g) (tally k gs).
Proof.
  intros k gs. induction gs as [ | [k0 c] gs IH ]; simpl; intro H.
  - constructor; [ simpl; lia | constructor ].
  - inversion H; subst. simpl in *.
    destruct (key_eqb k k0); constructor; simpl; auto; lia.
Qed.

(** The invariant of the counting loop, for an arbitrary starting dict. *)
Lemma tally_fold_inv : forall ks gs,
  NoDup (keys gs) ->
  Forall (fun g => 1 <= snd g) gs ->
  let gs' := fold_left (fun groups k => tally k groups) ks gs in
  NoDup (keys gs')
  /\ Forall (fun g => 1 <= snd g) gs'
  /\ sum_sizes gs' = sum_sizes gs + Z.of_nat (List.length ks)
  /\ forall k, dict_get_default key_eqb k 0 gs'
              = dict_get_default key_eqb k 0 gs
                + Z.of_nat (count_occ record_eq_dec ks k).
Proof.
  induction ks as [ | k0 ks IH ]; intros gs ND Pos; cbv zeta.
  - simpl. repeat split; auto; try lia.
  - simpl fold_left.
    destruct (IH (tally k0 gs) (tally_NoDup k0 gs ND) (tally_positive k0 gs Pos))
      as (ND' & Pos' & Sum' & Get').
    repeat split; auto.
    + rewrite Sum', tally_sum. simpl List.length. lia.
    + intro k. rewrite Get'.
      destruct (record_eq_dec k0 k) as [E | NE].
      * subst k0. rewrite count_occ_cons_eq by reflexivity.
        unfold dict_get_default at 1. rewrite tally_get_same. lia.
      * rewrite count_occ_cons_neq by assumption.
        unfold dict_get_default. rewrite tally_get_other by congruence. lia.
Qed.

Lemma group_sizes_inv : forall ks,
  NoDup (keys (group_sizes ks))
  /\ Forall (fun g => 1 <= snd g) (group_sizes ks)
  /\ sum_sizes (group_sizes ks) = Z.of_nat (List.length ks)
  /\ forall k, dict_get_default key_eqb k 0 (group_sizes ks)
              = Z.of_nat (count_occ record_eq_dec ks k).
Proof.
  intro ks. unfold group_sizes.
  destruct (tally_fold_inv ks [] (NoDup_nil _) (Forall_nil _))
    as (ND & Pos & Sum & Get).
  repeat split; auto.
Qed.

Lemma group_sizes_In : forall ks k c,
  In (k, c) (group_sizes ks)
  <-> c = Z.of_nat (count_occ record_eq_dec ks k) /\ 1 <= c.
Proof.
  intros ks k c.
  destruct (group_sizes_inv ks) as (ND & Pos & _ & Get).
  specialize (Get k). unfold dict_get_default in Get. split.
  - intro H. split.
    + apply (In_dict_get key_eqb key_eqb_iff) in H; [ | exact ND ].
      rewrite H in Get. exact Get.
    + rewrite Forall_forall in Pos. apply (Pos (k, c) H).
  - intros [Hc Hpos].
    destruct (dict_get key_eqb k (group_sizes ks)) as [c' | ] eqn:E.
    + apply (dict_get_In key_eqb key_eqb_iff) in E. congruence.
    + lia.
Qed.

(** ** Sorting the groups *)

Lemma insert_group_perm : forall g gs, Permutation (g :: gs) (insert_group g gs).
Proof.
  intros g gs. induction gs as [ | h gs IH ]; simpl.
  - apply Permutation_refl.
  - destruct (key_leb (fst g) (fst h)).
    + apply Permutation_refl.
    + eapply perm_trans; [ apply perm_swap | apply perm_skip, IH ].
Qed.

Lemma sort_groups_perm : forall gs, Permutation gs (sort_groups gs).
Proof.
  induction gs as [ | g gs IH ]; simpl.
  - apply perm_nil.
  - eapply perm_trans; [ apply perm_skip, IH | apply insert_group_perm ].
Qed.

Lemma sum_sizes_perm : forall gs gs',
  Permutation gs gs' -> sum_sizes gs = sum_sizes gs'.
Proof.
  intros gs gs' H. induction H; simpl; lia.
Qed.

Lemma sum_weights_reset_index : forall gs,
  sum_weights (reset_index gs) = sum_sizes gs.
Proof.
  induction gs as [ | g gs IH ]; simpl.
  - reflexivity.
  - change (edge_weight (fst (fst g), snd (fst g), snd g)
            + sum_weights (reset_index gs) = snd g + sum_sizes gs).
    rewrite IH. reflexivity.
Qed.

Example aggregate_scenario1 :
  aggregate (to_frame [("A", "B"); ("A", "B"); ("B", "C")])
  = [("A", "B", 2); ("B", "C", 1)].
Proof. reflexivity. Qed.

Example aggregate_sorted :
  aggregate (to_frame [("g", "h"); ("f", "g"); ("g", "a"); ("f", "g")])
  = [("f", "g", 2); ("g", "a", 1); ("g", "h", 1)].
Proof. reflexivity. Qed.

Example scenario4_weighted :
  match from_pandas_edgelist [("A", "B", 3); ("B", "A", 1)] with
  | Ok G =>
      match fst (graph_to_adjacency_matrix true G) with
      | Ok (nl, M) =>
          nl = ["A"; "B"] /\
          map (fun i => map (cell M i) [0; 1]%nat) [0; 1]%nat = [[0; 3]; [1; 0]]
      | Raise _ => False
      end
  | Raise _ => False
  end.
Proof. vm_compute. split; reflexivity. Qed.

(** ** Aggregation of the call trace *)

Lemma dropna_count : forall df s t,
  count_occ record_eq_dec (dropna df) (s, t) = occurrences s t df.
Proof.
  intros df s t. unfold occurrences.
  induction df as [ | [[a | ] [b | ]] df IH ]; simpl dropna.
  - reflexivity.
  - simpl app. destruct (record_eq_dec (a, b) (s, t)) as [E | NE].
    + inversion E; subst. rewrite !count_occ_cons_eq by reflexivity.
      f_equal. exact IH.
    + rewrite !count_occ_cons_neq; [ exact IH | congruence | exact NE ].
  - rewrite count_occ_cons_neq by discriminate. exact IH.
  - rewrite count_occ_cons_neq by discriminate. exact IH.
  - rewrite count_occ_cons_neq by discriminate. exact IH.
Qed.

Lemma dropna_to_frame : forall records, dropna (to_frame records) = records.
Proof.
  induction records as [ | [s t] records IH ]; simpl.
  - reflexivity.
  - rewrite IH. reflexivity.
Qed.

Lemma reset_index_In : forall gs s t w,
  In (s, t, w) (reset_index gs) <-> In ((s, t), w) gs.
Proof.
  intros gs s t w. unfold reset_index. rewrite in_map_iff. split.
  - intros [[[s' t'] w'] [E H]]. simpl in E. congruence.
  - intro H. exists ((s, t), w). auto.
Qed.

Lemma reset_index_keys : forall gs, map edge_key (reset_index gs) = keys gs.
Proof.
  intro gs. unfold reset_index, keys. rewrite map_map.
  apply map_ext. intros [[s t] w]. reflexivity.
Qed.

Lemma aggregate_In : forall df s t w,
  In (s, t, w) (aggregate df)
  <-> w = Z.of_nat (occurrences s t df) /\ 1 <= w.
Proof.
  intros df s t w. unfold aggregate, groupby_size.
  rewrite reset_index_In, <- dropna_count, <- group_sizes_In.
  split; apply Permutation_in;
    [ apply Permutation_sym | ]; apply sort_groups_perm.
Qed.

Lemma aggregate_keys_NoDup : forall df, NoDup (map edge_key (aggregate df)).
Proof.
  intro df. unfold aggregate, groupby_size. rewrite reset_index_keys.
  destruct (group_sizes_inv (dropna df)) as (ND & _).
  eapply Permutation_NoDup; [ | exact ND ].
  unfold keys. apply Permutation_map, sort_groups_perm.
Qed.

Lemma aggregate_NoDup : forall df, NoDup (aggregate df).
Proof.
  intro df. apply (NoDup_map_inv edge_key), aggregate_keys_NoDup.
Qed.

Lemma aggregate_sum : forall df,
  sum_weights (aggregate df) = Z.of_nat (List.length (dropna df)).
Proof.
  intro df. unfold aggregate, groupby_size.
  rewrite sum_weights_reset_index.
  rewrite <- (sum_sizes_perm _ _ (sort_groups_perm _)).
  apply group_sizes_inv.
Qed.

Lemma aggregate_positive : forall df,
  Forall (fun e => 1 <= edge_weight e) (aggregate df).
Proof.
  intro df. apply Forall_forall. intros [[s t] w] H.
  apply aggregate_In in H. simpl. tauto.
Qed.

Lemma occurrences_perm : forall df df' s t,
  Permutation df df' -> occurrences s t df = occurrences s t df'.
Proof.
  intros df df' s t H. unfold occurrences.
  apply (proj1 (Permutation_count_occ row_eq_dec df df') H).
Qed.

(** C1: the groupby step of [_calltrace_to_callgraph] yields no two edges
    with the same (source, target), and an edge (s, t, w) is among its
    output exactly when w is the number of rows of the trace holding the
    pair (s, t) and that number is at least one. *)
Theorem aggregate_one_edge_per_pair : forall df,
  NoDup (map edge_key (aggregate df))
  /\ forall s t w,
       In (s, t, w) (aggregate df)
       <-> w = Z.of_nat (occurrences s t df) /\ (0 < occurrences s t df)%nat.
Proof.
  intro df. split.
  - apply aggregate_keys_NoDup.
  - intros s t w. rewrite aggregate_In. split; intros [H1 H2]; split; auto; lia.
Qed.

(** C2: weight conservation: the weights of the edges aggregated from a
    sequence of call records add up to the number of records. *)
Theorem aggregate_weight_conservation : forall records : list CallRecord,
  sum_weights (aggregate (to_frame records)) = Z.of_nat (List.length records).
Proof.
  intro records. rewrite aggregate_sum, dropna_to_frame. reflexivity.
Qed.

(** C3: reordering the rows of the trace leaves the multiset of
    aggregated edges unchanged. *)
Theorem aggregate_permutation_invariant : forall df df',
  Permutation df df' -> Permutation (aggregate df) (aggregate df').
Proof.
  intros df df' H. apply NoDup_Permutation; try apply aggregate_NoDup.
  intros [[s t] w]. rewrite !aggregate_In.
  rewrite (occurrences_perm df df' s t H). tauto.
Qed.

Lemma aggregate_permutation_invariant_witness :
  Permutation
    (aggregate (to_frame [("f", "g"); ("main", "f"); ("f", "g")]))
    (aggregate (to_frame [("main", "f"); ("f", "g"); ("f", "g")])).
Proof.
  apply aggregate_permutation_invariant.
  unfold to_frame; simpl. apply perm_swap.
Defined.

(** ** Dict updates *)

Section DictUpdate.
Context {K V : Type}.
Variable eqb : K -> K -> bool.
Hypothesis eqb_spec : forall a b, eqb a b = true <-> a = b.

Lemma dict_get_set : forall k k' v (d : dict K V),
  dict_get eqb k' (dict_set eqb k v d)
  = if eqb k' k then Some v else dict_get eqb k' d.
Proof.
  intros k k' v d. destruct (eqb k' k) eqn:E.
  - apply eqb_spec in E. subst. apply dict_get_set_same. exact eqb_spec.
  - apply dict_get_set_other; [ exact eqb_spec | ].
    apply (eqb_false_iff eqb eqb_spec). exact E.
Qed.

Lemma dict_get_Some_keys : forall k v (d : dict K V),
  dict_get eqb k d = Some v -> In k (keys d).
Proof.
  intros k v d H. apply (dict_get_In eqb eqb_spec) in H.
  change k with (fst (k, v)). apply in_map. exact H.
Qed.

Lemma keys_dict_get : forall k (d : dict K V),
  In k (keys d) -> exists v, dict_get eqb k d = Some v.
Proof.
  intros k d H. destruct (dict_get eqb k d) as [v | ] eqn:E.
  - exists v. reflexivity.
  - apply (dict_get_None eqb eqb_spec) in E. contradiction.
Qed.

Lemma dict_set_keys_In : forall k v (d : dict K V) k',
  In k' (keys (dict_set eqb k v d)) <-> k' = k \/ In k' (keys d).
Proof.
  intros k v d k'. destruct (dict_get eqb k d) as [v0 | ] eqn:E.
  - apply dict_get_Some_keys in E.
    rewrite (dict_set_keys_mem eqb eqb_spec) by exact E.
    split; [ tauto | intros [H | H]; congruence ].
  - apply (dict_get_None eqb eqb_spec) in E.
    rewrite (dict_set_absent eqb eqb_spec) by exact E.
    unfold keys. rewrite map_app, in_app_iff. simpl.
    split; intros [H | H]; auto; destruct H; auto; contradiction.
Qed.

Lemma dict_set_NoDup : forall k v (d : dict K V),
  NoDup (keys d) -> NoDup (keys (dict_set eqb k v d)).
Proof.
  intros k v d ND. destruct (dict_get eqb k d) as [v0 | ] eqn:E.
  - apply dict_get_Some_keys in E.
    rewrite (dict_set_keys_mem eqb eqb_spec) by exact E. exact ND.
  - apply (dict_get_None eqb eqb_spec) in E.
    rewrite (dict_set_absent eqb eqb_spec) by exact E.
    unfold keys. rewrite map_app. simpl.
    apply (Permutation_NoDup (Permutation_cons_append _ _)).
    constructor; assumption.
Qed.

End DictUpdate.

(** ** Building the graph *)

Lemma existsb_eqb_In : forall u ns,
  existsb (String.eqb u) ns = true <-> In u ns.
Proof.
  intros u ns. rewrite existsb_exists. split.
  - intros [x [H E]]. apply String.eqb_eq in E. congruence.
  - intro H. exists u. split; [ exact H | apply String.eqb_refl ].
Qed.

Lemma wf_empty : wf empty_graph.
Proof.
  unfold wf. simpl. repeat split; try constructor; discriminate.
Qed.

Lemma touch_node_spec : forall u G,
  wf G ->
  wf (touch_node u G)
  /\ In u (_node (touch_node u G))
  /\ (forall x, In x (_node G) -> In x (_node (touch_node u G)))
  /\ forall a b, edge_data (touch_node u G) a b = edge_data G a b.
Proof.
  intros u G (Hk & ND & Hin). unfold touch_node, dict_mem.
  destruct (dict_get String.eqb u (_succ G)) as [nbrs | ] eqn:E.
  - split; [ exact (conj Hk (conj ND Hin)) | ].
    split; [ | split; auto ].
    rewrite <- Hk. apply (dict_get_Some_keys String.eqb string_eqb_iff _ _ _ E).
  - assert (Hnot' : ~ In u (keys (_succ G))).
    { apply (dict_get_None String.eqb string_eqb_iff). exact E. }
    assert (Hnot : ~ In u (_node G)) by (rewrite <- Hk; exact Hnot').
    assert (Hset : node_set u (_node G) = (_node G ++ [u])%list).
    { unfold node_set. destruct (existsb (String.eqb u) (_node G)) eqn:X.
      - apply existsb_eqb_In in X. contradiction.
      - reflexivity. }
    assert (Hsucc : dict_set String.eqb u [] (_succ G)
                    = (_succ G ++ [(u, [])])%list).
    { apply (dict_set_absent String.eqb string_eqb_iff). exact Hnot'. }
    unfold wf, edge_data. simpl _node. simpl _succ. rewrite Hset.
    split; [ split; [ | split ] | split; [ | split ] ].
    + rewrite Hsucc. unfold keys in *. rewrite map_app, Hk. reflexivity.
    + apply (Permutation_NoDup (Permutation_cons_append _ _)).
      constructor; assumption.
    + intros u0 nbrs H.
      rewrite (dict_get_set String.eqb string_eqb_iff) in H.
      destruct (String.eqb u0 u).
      * inversion H; subst. split; [ constructor | intros v [] ].
      * destruct (Hin _ _ H) as [A B]. split; [ exact A | ].
        intros v Hv. apply in_or_app. left. apply B, Hv.
    + apply in_or_app. right. simpl. auto.
    + intros x Hx. apply in_or_app. auto.
    + intros a b. rewrite (dict_get_set String.eqb string_eqb_iff).
      destruct (String.eqb a u) eqn:Ea.
      * apply String.eqb_eq in Ea. subst. rewrite E. reflexivity.
      * reflexivity.
Qed.

Lemma adj_of_edge_data : forall u v G,
  dict_get String.eqb v (adj_of u G) = edge_data G u v.
Proof.
  intros u v G. unfold adj_of, dict_get_default, edge_data.
  destruct (dict_get String.eqb u (_succ G)); reflexivity.
Qed.

Lemma set_edge_data_spec : forall u v dd G,
  wf G -> In u (_node G) -> In v (_node G) ->
  wf (set_edge_data u v dd G)
  /\ _node (set_edge_data u v dd G) = _node G
  /\ edge_data (set_edge_data u v dd G) u v = Some dd
  /\ forall a b, (a, b) <> (u, v) ->
       edge_data (set_edge_data u v dd G) a b = edge_data G a b.
Proof.
  intros u v dd G (Hk & ND & Hin) Hu Hv.
  assert (Hu' : In u (keys (_succ G))) by (rewrite Hk; exact Hu).
  destruct (keys_dict_get String.eqb string_eqb_iff _ _ Hu') as [nbrs E].
  assert (Hadj : adj_of u G = nbrs).
  { unfold adj_of, dict_get_default. rewrite E. reflexivity. }
  destruct (Hin _ _ E) as [NDn Hn].
  unfold set_edge_data, wf, edge_data. simpl _node. simpl _succ. rewrite Hadj.
  split; [ split; [ | split ] | split; [ | split ] ].
  - rewrite (dict_set_keys_mem String.eqb string_eqb_iff) by exact Hu'.
    exact Hk.
  - exact ND.
  - intros u0 nbrs0 H.
    rewrite (dict_get_set String.eqb string_eqb_iff) in H.
    destruct (String.eqb u0 u).
    + inversion H; subst. split.
      * apply (dict_set_NoDup String.eqb string_eqb_iff). exact NDn.
      * intros x Hx.
        apply (dict_set_keys_In String.eqb string_eqb_iff) in Hx.
        destruct Hx as [Hx | Hx]; [ subst; exact Hv | auto ].
    + apply (Hin _ _ H).
  - reflexivity.
  - rewrite (dict_get_set String.eqb string_eqb_iff), String.eqb_refl.
    apply (dict_get_set_same String.eqb string_eqb_iff).
  - intros a b Hab. rewrite (dict_get_set String.eqb string_eqb_iff).
    destruct (String.eqb a u) eqn:Ea.
    + apply String.eqb_eq in Ea. subst a. rewrite E.
      apply (dict_get_set_other String.eqb string_eqb_iff). congruence.
    + reflexivity.
Qed.

(** One iteration of the loop of [from_pandas_edgelist] on the row
    (s, t, w) of a frame whose only attribute column is [label]. *)
Lemma populate_step_spec : forall s t w G,
  wf G ->
  let G' := update_edge s t [("label", w)] (add_edge s t G) in
  wf G'
  /\ In s (_node G') /\ In t (_node G')
  /\ (forall x, In x (_node G) -> In x (_node G'))
  /\ edge_data G' s t
     = Some (dict_set String.eqb "label" w
               (match edge_data G s t with Some d => d | None => [] end))
  /\ forall a b, (a, b) <> (s, t) -> edge_data G' a b = edge_data G a b.
Proof.
  intros s t w G W. cbv zeta.
  destruct (touch_node_spec s G W) as (W1 & Hs1 & Hmono1 & Hed1).
  destruct (touch_node_spec t (touch_node s G) W1) as (W2 & Ht2 & Hmono2 & Hed2).
  set (G2 := touch_node t (touch_node s G)) in *.
  assert (Hs2 : In s (_node G2)) by auto.
  set (dd := dict_get_default String.eqb t [] (adj_of s G2)).
  destruct (set_edge_data_spec s t dd G2 W2 Hs2 Ht2) as (W3 & Hn3 & Hst3 & Ho3).
  assert (Hadd : add_edge s t G = set_edge_data s t dd G2) by reflexivity.
  set (G3 := set_edge_data s t dd G2) in *.
  assert (Hs3 : In s (_node G3)) by (rewrite Hn3; exact Hs2).
  assert (Ht3 : In t (_node G3)) by (rewrite Hn3; exact Ht2).
  set (dd' := dict_set String.eqb "label" w
                (dict_get_default String.eqb t [] (adj_of s G3))).
  destruct (set_edge_data_spec s t dd' G3 W3 Hs3 Ht3) as (W4 & Hn4 & Hst4 & Ho4).
  assert (Hupd : update_edge s t [("label", w)] (add_edge s t G)
                 = set_edge_data s t dd' G3).
  { rewrite Hadd. reflexivity. }
  rewrite Hupd.
  split; [ exact W4 | ].
  split; [ | split; [ | split; [ | split ] ] ].
  - rewrite Hn4. exact Hs3.
  - rewrite Hn4. exact Ht3.
  - intros x Hx. rewrite Hn4, Hn3. auto.
  - rewrite Hst4. unfold dd'. f_equal. f_equal.
    unfold dict_get_default at 1. rewrite adj_of_edge_data, Hst3.
    unfold dd, dict_get_default. rewrite adj_of_edge_data.
    unfold G2. rewrite Hed2, Hed1. reflexivity.
  - intros a b Hab. rewrite Ho4, Ho3 by exact Hab.
    unfold G2. rewrite Hed2, Hed1. reflexivity.
Qed.

Lemma from_pandas_edgelist_ok : forall df,
  from_pandas_edgelist df = Ok (populate ["label"] df empty_graph).
Proof. intro df. reflexivity. Qed.

Lemma populate_cons : forall e df g,
  populate ["label"] (e :: df) g
  = populate ["label"] df
      (update_edge (fst (fst e)) (snd (fst e)) [("label", snd e)]
         (add_edge (fst (fst e)) (snd (fst e)) g)).
Proof. intros e df g. reflexivity. Qed.

Lemma populate_wf : forall df g, wf g -> wf (populate ["label"] df g).
Proof.
  induction df as [ | e df IH ]; intros g W.
  - exact W.
  - rewrite populate_cons. apply IH.
    apply (populate_step_spec _ _ _ g W).
Qed.

(** ** The edge view of a well-formed graph *)

Lemma edges_In : forall G u v d,
  wf G -> (In (u, v, d) (edges G) <-> edge_data G u v = Some d).
Proof.
  intros G u v d (Hk & ND & Hin). unfold edges, edges_data, edge_data.
  rewrite in_flat_map. split.
  - intros [n [Hn H]].
    destruct (dict_get String.eqb n (_succ G)) as [nbrs | ] eqn:E;
      [ | contradiction ].
    apply in_map_iff in H. destruct H as [[v' d'] [Heq Hp]].
    simpl in Heq. inversion Heq; subst. rewrite E.
    apply (In_dict_get String.eqb string_eqb_iff); [ | exact Hp ].
    apply (Hin _ _ E).
  - intro H.
    destruct (dict_get String.eqb u (_succ G)) as [nbrs | ] eqn:E;
      [ | discriminate ].
    exists u. split.
    + rewrite <- Hk.
      apply (dict_get_Some_keys String.eqb string_eqb_iff _ _ _ E).
    + rewrite E. apply in_map_iff. exists (v, d). split; [ reflexivity | ].
      apply (dict_get_In String.eqb string_eqb_iff). exact H.
Qed.

Lemma NoDup_flat_map : forall {A B : Type} (f : A -> list B) (l : list A),
  NoDup l ->
  (forall x, In x l -> NoDup (f x)) ->
  (forall x y b, In x l -> In y l -> In b (f x) -> In b (f y) -> x = y) ->
  NoDup (flat_map f l).
Proof.
  intros A B f l. induction l as [ | a l IH ]; intros ND Hf Hdisj; simpl.
  - constructor.
  - inversion ND as [ | ? ? Hnotin ND' ]; subst.
    apply NoDup_app.
    + apply Hf. left. reflexivity.
    + apply IH; auto.
      * intros x Hx. apply Hf. right. exact Hx.
      * intros x y b Hx Hy. apply Hdisj; right; assumption.
    + intros b Hb Hb'. apply in_flat_map in Hb'. destruct Hb' as [y [Hy Hby]].
      assert (a = y).
      { apply (Hdisj a y b); simpl; auto. }
      subst. contradiction.
Qed.

Lemma edges_NoDup : forall G, wf G -> NoDup (edges G).
Proof.
  intros G (Hk & ND & Hin). unfold edges, edges_data.
  apply NoDup_flat_map.
  - exact ND.
  - intros n Hn.
    destruct (dict_get String.eqb n (_succ G)) as [nbrs | ] eqn:E;
      [ | constructor ].
    apply (NoDup_map_inv (fun e : string * string * list (string * Z) =>
                            snd (fst e))).
    rewrite map_map. simpl. apply (Hin _ _ E).
  - intros x y b Hx Hy Hbx Hby.
    destruct (dict_get String.eqb x (_succ G)); [ | contradiction ].
    destruct (dict_get String.eqb y (_succ G)); [ | contradiction ].
    apply in_map_iff in Hbx. destruct Hbx as [p [Hp _]].
    apply in_map_iff in Hby. destruct Hby as [q [Hq _]].
    subst b. inversion Hq. reflexivity.
Qed.

Lemma edges_keys_NoDup : forall G, wf G -> NoDup (keys (edges G)).
Proof.
  intros G W. pose proof (edges_NoDup G W) as ND.
  assert (Hfun : forall k d d',
             In (k, d) (edges G) -> In (k, d') (edges G) -> d = d').
  { intros [u v] d d' H H'. apply (edges_In G u v _ W) in H, H'. congruence. }
  induction (edges G) as [ | [k d] L IH ]; simpl.
  - constructor.
  - inversion ND as [ | ? ? Hnotin ND' ]; subst. constructor.
    + intro H. apply in_map_iff in H. destruct H as [[k' d'] [Hk' Hp]].
      simpl in Hk'. subst k'.
      assert (d = d') by (apply (Hfun k); simpl; auto).
      subst. contradiction.
    + apply IH; auto. intros k0 d0 d0' H H'. apply (Hfun k0); simpl; auto.
Qed.

Lemma edges_dict_get : forall G u v,
  wf G -> dict_get key_eqb (u, v) (edges G) = edge_data G u v.
Proof.
  intros G u v W.
  destruct (edge_data G u v) as [d | ] eqn:E.
  - apply (In_dict_get key_eqb key_eqb_iff).
    + apply edges_keys_NoDup, W.
    + apply edges_In; assumption.
  - destruct (dict_get key_eqb (u, v) (edges G)) as [d | ] eqn:E'; auto.
    apply (dict_get_In key_eqb key_eqb_iff) in E'.
    apply edges_In in E'; [ congruence | exact W ].
Qed.

Lemma edges_endpoints : forall G u v d,
  wf G -> In (u, v, d) (edges G) -> In u (_node G) /\ In v (_node G).
Proof.
  intros G u v d W H. pose proof W as (Hk & ND & Hin).
  apply edges_In in H; [ | exact W ]. unfold edge_data in H.
  destruct (dict_get String.eqb u (_succ G)) as [nbrs | ] eqn:E;
    [ | discriminate ].
  split.
  - rewrite <- Hk.
    apply (dict_get_Some_keys String.eqb string_eqb_iff _ _ _ E).
  - apply (proj2 (Hin _ _ E)).
    apply (dict_get_Some_keys String.eqb string_eqb_iff _ _ _ H).
Qed.

(** ** The graph built from a frame of weighted edges *)

(** Every edge of the graph carries exactly the attribute [label], set
    from a row of the frame with the same endpoints. *)
Lemma populate_edges_from_rows : forall df g seen,
  wf g ->
  (forall u v d, edge_data g u v = Some d ->
     exists w, d = [("label", w)] /\ In (u, v, w) seen) ->
  forall u v d, edge_data (populate ["label"] df g) u v = Some d ->
    exists w, d = [("label", w)] /\ In (u, v, w) (seen ++ df).
Proof.
  induction df as [ | [[s t] w] df IH ]; intros g seen W Hg u v d H.
  - rewrite app_nil_r. apply Hg. exact H.
  - rewrite populate_cons in H. simpl fst in H. simpl snd in H.
    destruct (populate_step_spec s t w g W) as (W' & _ & _ & _ & Hst & Ho).
    assert (Hseen : forall a b d', edge_data
               (update_edge s t [("label", w)] (add_edge s t g)) a b = Some d' ->
               exists w', d' = [("label", w')]
                          /\ In (a, b, w') (seen ++ [(s, t, w)])).
    2: { destruct (IH _ _ W' Hseen u v d H) as [w' [Hd' Hin']].
         exists w'. split; [ exact Hd' | ].
         rewrite <- app_assoc in Hin'. exact Hin'. }
    intros a b d' Hd'. destruct (record_eq_dec (a, b) (s, t)) as [E | NE].
    + inversion E; subst. rewrite Hst in Hd'. inversion Hd'; subst.
      exists w. split.
      * destruct (edge_data g s t) as [d0 | ] eqn:E0; [ | reflexivity ].
        destruct (Hg _ _ _ E0) as [w0 [Hd0 _]]. subst. reflexivity.
      * apply in_or_app. right. simpl. auto.
    + rewrite Ho in Hd' by exact NE.
      destruct (Hg _ _ _ Hd') as [w0 [Hd0 Hin0]].
      exists w0. split; [ exact Hd0 | apply in_or_app; auto ].
Qed.

Lemma populate_nodes_mono : forall df g x,
  wf g -> In x (_node g) -> In x (_node (populate ["label"] df g)).
Proof.
  induction df as [ | [[a b] w] df IH ]; intros g x W Hx.
  - exact Hx.
  - rewrite populate_cons. simpl fst. simpl snd.
    destruct (populate_step_spec a b w g W) as (W' & _ & _ & Hmono & _).
    apply IH; auto.
Qed.

Lemma populate_nonempty : forall df g,
  wf g -> df <> [] -> _node (populate ["label"] df g) <> [].
Proof.
  intros [ | [[a b] w] df ] g W Hne; [ congruence | ].
  rewrite populate_cons. simpl fst. simpl snd.
  destruct (populate_step_spec a b w g W) as (W' & Ha & _).
  intro E. apply (populate_nodes_mono df _ a W') in Ha.
  rewrite E in Ha. contradiction.
Qed.

(** C4: every edge of the call graph built from a trace carries a [label]
    attribute that is an integer greater than or equal to 1. *)
Theorem callgraph_weights_positive : forall trace_df G u v d,
  _calltrace_to_callgraph trace_df = Ok G ->
  In (u, v, d) (edges G) ->
  exists w, dict_get String.eqb "label" d = Some w /\ 1 <= w.
Proof.
  intros trace_df G u v d HG Hin. unfold _calltrace_to_callgraph in HG.
  rewrite from_pandas_edgelist_ok in HG. inversion HG; subst G. clear HG.
  apply edges_In in Hin; [ | apply populate_wf, wf_empty ].
  apply (populate_edges_from_rows _ _ [] wf_empty) in Hin.
  - destruct Hin as [w [Hd Hw]]. simpl in Hw. exists w. subst d. split.
    + reflexivity.
    + apply aggregate_In in Hw. tauto.
  - intros a b d' H. discriminate.
Qed.

Lemma callgraph_weights_positive_witness :
  exists w, dict_get String.eqb "label" [("label", 2)] = Some w /\ 1 <= w.
Proof.
  apply (callgraph_weights_positive
           (to_frame [("f", "g"); ("f", "g")])
           (mkDiGraph ["f"; "g"] [("f", [("g", [("label", 2)])]); ("g", [])])
           "f" "g").
  - reflexivity.
  - simpl. auto.
Defined.

(** C6 (as stated, refuted): a trace whose first row lacks its target is
    aggregated without an error; the row is left out and the remaining
    row is counted. *)
Lemma malformed_record_dropped :
  aggregate [(Some "main", None); (Some "main", Some "f")] = [("main", "f", 1)]
  /\ _calltrace_to_callgraph [(Some "main", None); (Some "main", Some "f")]
     = Ok (mkDiGraph ["main"; "f"]
             [("main", [("f", [("label", 1)])]); ("f", [])]).
Proof. split; reflexivity. Qed.

(** C6 (amended): the conversion never raises; rows with a missing source
    or target are left out by the groupby step, and the result is that of
    the trace restricted to its complete rows. *)
Theorem incomplete_rows_left_out : forall trace_df,
  aggregate trace_df = aggregate (to_frame (dropna trace_df))
  /\ _calltrace_to_callgraph trace_df
     = _calltrace_to_callgraph (to_frame (dropna trace_df))
  /\ is_ok (_calltrace_to_callgraph trace_df) = true.
Proof.
  intro trace_df.
  assert (H : aggregate trace_df = aggregate (to_frame (dropna trace_df))).
  { unfold aggregate, groupby_size. rewrite dropna_to_frame. reflexivity. }
  split; [ exact H | split ].
  - unfold _calltrace_to_callgraph. rewrite H. reflexivity.
  - unfold _calltrace_to_callgraph. rewrite from_pandas_edgelist_ok.
    reflexivity.
Qed.

(** ** The node index *)

Lemma fold_dict_set_fresh : forall (kvs d : list (string * nat)),
  NoDup (keys d ++ keys kvs) ->
  fold_left (fun d p => dict_set String.eqb (fst p) (snd p) d) kvs d
  = (d ++ kvs)%list.
Proof.
  induction kvs as [ | [k v] kvs IH ]; intros d ND; simpl.
  - rewrite app_nil_r. reflexivity.
  - simpl in ND.
    rewrite (dict_set_absent String.eqb string_eqb_iff).
    + rewrite IH.
      * rewrite <- app_assoc. reflexivity.
      * unfold keys in *. rewrite map_app, <- app_assoc. exact ND.
    + apply NoDup_remove_2 in ND. intro H. apply ND.
      apply in_or_app. left. exact H.
Qed.

Lemma keys_combine_seq : forall (l : list string) a,
  keys (combine l (seq a (List.length l))) = l.
Proof.
  induction l as [ | x l IH ]; intro a; simpl.
  - reflexivity.
  - f_equal. apply IH.
Qed.

Lemma node_index_NoDup : forall l,
  NoDup l -> node_index l = combine l (seq 0 (List.length l)).
Proof.
  intros l ND. unfold node_index. rewrite fold_dict_set_fresh.
  - reflexivity.
  - simpl. rewrite keys_combine_seq. exact ND.
Qed.

Lemma dict_get_combine_seq : forall (l : list string) a u i,
  dict_get String.eqb u (combine l (seq a (List.length l))) = Some i ->
  (a <= i)%nat /\ nth_error l (i - a) = Some u.
Proof.
  induction l as [ | x l IH ]; intros a u i H; simpl in H.
  - discriminate.
  - destruct (String.eqb u x) eqn:E.
    + apply String.eqb_eq in E. inversion H; subst.
      rewrite Nat.sub_diag. split; [ lia | reflexivity ].
    + apply IH in H. destruct H as [Hle Hnth]. split; [ lia | ].
      replace (i - a)%nat with (S (i - S a)) by lia. exact Hnth.
Qed.

Lemma node_index_spec : forall l u i,
  NoDup l ->
  (dict_get String.eqb u (node_index l) = Some i <-> nth_error l i = Some u).
Proof.
  intros l u i ND. rewrite node_index_NoDup by exact ND. split.
  - intro H. apply dict_get_combine_seq in H.
    rewrite Nat.sub_0_r in H. tauto.
  - intro H.
    assert (Hin : In u (keys (combine l (seq 0 (List.length l))))).
    { rewrite keys_combine_seq. apply (nth_error_In _ _ H). }
    destruct (keys_dict_get String.eqb string_eqb_iff _ _ Hin) as [i' E].
    rewrite E. f_equal.
    apply dict_get_combine_seq in E. rewrite Nat.sub_0_r in E.
    destruct E as [_ E].
    apply (proj1 (NoDup_nth_error l) ND).
    + apply nth_error_Some. congruence.
    + congruence.
Qed.

(** ** Sums *)

Lemma Zsum_app : forall {A : Type} (f : A -> Z) l1 l2,
  Zsum f (l1 ++ l2) = Zsum f l1 + Zsum f l2.
Proof.
  intros A f l1 l2. induction l1 as [ | x l1 IH ]; simpl.
  - reflexivity.
  - rewrite IH. lia.
Qed.

Lemma Zsum_perm : forall {A : Type} (f : A -> Z) l1 l2,
  Permutation l1 l2 -> Zsum f l1 = Zsum f l2.
Proof.
  intros A f l1 l2 H. induction H; simpl; lia.
Qed.

Lemma Zsum_ext_in : forall {A : Type} (f g : A -> Z) l,
  (forall x, In x l -> f x = g x) -> Zsum f l = Zsum g l.
Proof.
  intros A f g l H. induction l as [ | x l IH ]; simpl.
  - reflexivity.
  - rewrite (H x) by (simpl; auto).
    rewrite IH by (intros y Hy; apply H; simpl; auto).
    reflexivity.
Qed.

Lemma Zsum_plus : forall {A : Type} (f g : A -> Z) l,
  Zsum (fun x => f x + g x) l = Zsum f l + Zsum g l.
Proof.
  intros A f g l. induction l as [ | x l IH ]; simpl.
  - reflexivity.
  - rewrite IH. lia.
Qed.

Lemma Zsum_zero : forall {A : Type} (f : A -> Z) l,
  (forall x, In x l -> f x = 0) -> Zsum f l = 0.
Proof.
  intros A f l H. induction l as [ | x l IH ]; simpl.
  - reflexivity.
  - rewrite (H x) by (simpl; auto).
    rewrite IH by (intros y Hy; apply H; simpl; auto).
    reflexivity.
Qed.

Lemma Zsum_indicator : forall (r : nat) (x : Z) l,
  NoDup l -> In r l ->
  Zsum (fun i => if Nat.eqb r i then x else 0) l = x.
Proof.
  intros r x l ND. induction ND as [ | a l Hnot ND IH ]; intro Hin.
  - contradiction.
  - simpl. destruct (Nat.eqb r a) eqn:E.
    + apply Nat.eqb_eq in E. subst.
      rewrite Zsum_zero; [ lia | ].
      intros y Hy. destruct (Nat.eqb a y) eqn:E'; [ | reflexivity ].
      apply Nat.eqb_eq in E'. subst. contradiction.
    + apply Nat.eqb_neq in E. destruct Hin as [Hin | Hin]; [ congruence | ].
      rewrite IH by exact Hin. lia.
Qed.

Lemma Zsum_map : forall {A B : Type} (f : B -> Z) (g : A -> B) l,
  Zsum f (map g l) = Zsum (fun x => f (g x)) l.
Proof.
  intros A B f g l. induction l as [ | x l IH ]; simpl.
  - reflexivity.
  - rewrite IH. reflexivity.
Qed.

Lemma Zsum_ones : forall {A : Type} (l : list A),
  Zsum (fun _ => 1) l = Z.of_nat (List.length l).
Proof.
  intros A l. induction l as [ | x l IH ].
  - reflexivity.
  - change (1 + Zsum (fun _ : A => 1) l = Z.of_nat (S (List.length l))).
    rewrite IH. lia.
Qed.

(** In a dict with distinct keys, summing over the entries with a given
    key is a lookup. *)
Lemma Zsum_select : forall {V : Type} (g : V -> Z) k
                           (L : list (CallRecord * V)),
  NoDup (keys L) ->
  Zsum (fun e => if key_eqb k (fst e) then g (snd e) else 0) L
  = match dict_get key_eqb k L with Some v => g v | None => 0 end.
Proof.
  intros V g k L ND. induction L as [ | [k0 v0] L IH ]; simpl.
  - reflexivity.
  - inversion ND as [ | ? ? Hnot ND' ]; subst.
    destruct (key_eqb k k0) eqn:E.
    + apply key_eqb_iff in E. subst k0.
      rewrite Zsum_zero; [ lia | ].
      intros [k1 v1] H1. simpl. destruct (key_eqb k k1) eqn:E1; auto.
      apply key_eqb_iff in E1. subst k1. exfalso. apply Hnot.
      change k with (fst (k, v1)). apply in_map. exact H1.
    + rewrite IH by exact ND'. lia.
Qed.

(** ** Cells and sums of a coefficient matrix *)

Lemma cell_cons : forall sh c cs i j,
  cell (mkCoo sh (c :: cs)) i j
  = (if Nat.eqb (fst (fst c)) i && Nat.eqb (snd (fst c)) j then snd c else 0)
    + cell (mkCoo sh cs) i j.
Proof.
  intros sh c cs i j. unfold cell. simpl.
  destruct (Nat.eqb (fst (fst c)) i && Nat.eqb (snd (fst c)) j); lia.
Qed.

Lemma matrix_sum_coefficients : forall n cs,
  (forall c, In c cs -> (fst (fst c) < n)%nat /\ (snd (fst c) < n)%nat) ->
  matrix_sum (mkCoo (n, n) cs) = Zsum snd cs.
Proof.
  intros n cs. induction cs as [ | [[r c] x] cs IH ]; intro Hrange.
  - unfold matrix_sum, row_sum. simpl.
    apply Zsum_zero. intros i _. apply Zsum_zero. intros j _. reflexivity.
  - simpl Zsum. rewrite <- IH by (intros c0 H0; apply Hrange; simpl; auto).
    destruct (Hrange (r, c, x)) as [Hr Hc]; [ simpl; auto | ].
    simpl in Hr, Hc.
    unfold matrix_sum, row_sum. simpl fst. simpl snd.
    rewrite (Zsum_ext_in _
               (fun i => (if Nat.eqb r i then x else 0)
                         + Zsum (cell (mkCoo (n, n) cs) i) (seq 0 n))).
    + rewrite Zsum_plus. f_equal.
      apply Zsum_indicator; [ apply seq_NoDup | apply in_seq; lia ].
    + intros i _.
      rewrite (Zsum_ext_in _
                 (fun j => (if Nat.eqb r i && Nat.eqb c j then x else 0)
                           + cell (mkCoo (n, n) cs) i j))
        by (intros j _; apply cell_cons).
      rewrite Zsum_plus. f_equal.
      destruct (Nat.eqb r i); simpl.
      * apply Zsum_indicator; [ apply seq_NoDup | apply in_seq; lia ].
      * apply Zsum_zero. reflexivity.
Qed.

(** ** The adjacency matrix of a well-formed graph *)

Lemma coefficient_singleton : forall l weight u v d,
  NoDup l -> In u l -> In v l ->
  exists iu iv,
    nth_error l iu = Some u /\ nth_error l iv = Some v
    /\ coefficient (node_index l) weight (u, v, d)
       = [(iu, iv, edge_value weight d)].
Proof.
  intros l weight u v d ND Hu Hv.
  destruct (In_nth_error _ _ Hu) as [iu Eu].
  destruct (In_nth_error _ _ Hv) as [iv Ev].
  exists iu, iv. split; [ exact Eu | split; [ exact Ev | ] ].
  unfold coefficient. simpl fst. simpl snd.
  rewrite (proj2 (node_index_spec l u iu ND) Eu).
  rewrite (proj2 (node_index_spec l v iv ND) Ev).
  reflexivity.
Qed.

Lemma coefficients_spec : forall l weight sh L,
  NoDup l ->
  (forall u v d, In (u, v, d) L -> In u l /\ In v l) ->
  (forall c, In c (flat_map (coefficient (node_index l) weight) L) ->
     (fst (fst c) < List.length l)%nat /\ (snd (fst c) < List.length l)%nat)
  /\ Zsum snd (flat_map (coefficient (node_index l) weight) L)
     = Zsum (fun e => edge_value weight (snd e)) L
  /\ forall i j ni nj,
       nth_error l i = Some ni -> nth_error l j = Some nj ->
       cell (mkCoo sh (flat_map (coefficient (node_index l) weight) L)) i j
       = Zsum (fun e => if key_eqb (ni, nj) (fst e)
                        then edge_value weight (snd e) else 0) L.
Proof.
  intros l weight sh L ND. induction L as [ | [[u v] d] L IH ]; intro Hend.
  - split; [ intros c [] | split; [ reflexivity | reflexivity ] ].
  - destruct IH as (IHr & IHs & IHc).
    { intros a b d' H. apply (Hend a b d'). simpl; auto. }
    destruct (Hend u v d) as [Hu Hv]; [ simpl; auto | ].
    destruct (coefficient_singleton l weight u v d ND Hu Hv)
      as (iu & iv & Eu & Ev & Hco).
    simpl flat_map. rewrite Hco. simpl app.
    split; [ | split ].
    + intros c [Hc | Hc].
      * subst c. simpl. split; apply nth_error_Some; congruence.
      * apply IHr, Hc.
    + simpl. rewrite IHs. reflexivity.
    + intros i j ni nj Ei Ej. rewrite cell_cons, (IHc i j ni nj Ei Ej).
      simpl. f_equal.
      assert (Hb : Nat.eqb iu i && Nat.eqb iv j = key_eqb (ni, nj) (u, v)).
      { apply eq_true_iff_eq.
        rewrite andb_true_iff, !Nat.eqb_eq, key_eqb_iff. split.
        - intros [H1 H2]. subst. congruence.
        - intro H. inversion H; subst. split.
          + apply (proj1 (NoDup_nth_error l) ND).
            * apply nth_error_Some. congruence.
            * congruence.
          + apply (proj1 (NoDup_nth_error l) ND).
            * apply nth_error_Some. congruence.
            * congruence. }
      rewrite Hb. reflexivity.
Qed.

Lemma to_scipy_sparse_matrix_spec : forall G weight,
  wf G -> _node G <> [] ->
  exists M,
    to_scipy_sparse_matrix G weight = Ok M
    /\ shape M = (number_of_nodes G, number_of_nodes G)
    /\ matrix_sum M = Zsum (fun e => edge_value weight (snd e)) (edges G)
    /\ forall i j ni nj,
         nth_error (_node G) i = Some ni -> nth_error (_node G) j = Some nj ->
         cell M i j = match edge_data G ni nj with
                      | Some d => edge_value weight d
                      | None => 0
                      end.
Proof.
  intros G weight W Hne. pose proof W as (Hk & ND & Hin).
  unfold to_scipy_sparse_matrix.
  destruct (Nat.eqb (List.length (_node G)) 0) eqn:E.
  - apply Nat.eqb_eq in E. destruct (_node G); [ congruence | discriminate ].
  - eexists. split; [ reflexivity | ].
    destruct (coefficients_spec (_node G) weight
                (List.length (_node G), List.length (_node G))
                (edges G) ND)
      as (Hr & Hs & Hc).
    { intros u v d H. apply (edges_endpoints G u v d W H). }
    split; [ reflexivity | split ].
    + rewrite <- Hs. apply matrix_sum_coefficients. exact Hr.
    + intros i j ni nj Ei Ej.
      change (edges_data G (_node G)) with (edges G).
      rewrite (Hc i j ni nj Ei Ej).
      rewrite (Zsum_select (fun d => edge_value weight d) (ni, nj) (edges G))
        by (apply edges_keys_NoDup; exact W).
      rewrite edges_dict_get by exact W. reflexivity.
Qed.

Lemma graph_to_adjacency_matrix_eq : forall use_weights G,
  graph_to_adjacency_matrix use_weights G
  = (match to_scipy_sparse_matrix G
             (if use_weights then Some "label" else None) with
     | Ok M => Ok (_node G, M)
     | Raise e => Raise e
     end, G).
Proof.
  intros use_weights G.
  unfold graph_to_adjacency_matrix, bind, nodes, adjacency_matrix, ret.
  destruct use_weights;
    match goal with
    | |- context [ to_scipy_sparse_matrix ?g ?w ] =>
        destruct (to_scipy_sparse_matrix g w)
    end; reflexivity.
Qed.

(** Adding an edge that is not yet in the graph adds one entry to the
    edge view and leaves the others as they are. *)
Lemma populate_step_edges : forall s t w G,
  wf G -> edge_data G s t = None ->
  Permutation
    (edges (update_edge s t [("label", w)] (add_edge s t G)))
    ((s, t, [("label", w)]) :: edges G).
Proof.
  intros s t w G W E.
  destruct (populate_step_spec s t w G W) as (W' & _ & _ & _ & Hst & Ho).
  rewrite E in Hst. simpl in Hst.
  apply NoDup_Permutation.
  - apply edges_NoDup, W'.
  - constructor; [ | apply edges_NoDup, W ].
    intro H. apply edges_In in H; [ congruence | exact W ].
  - intros [[a b] d]. rewrite edges_In by exact W'. simpl In.
    rewrite edges_In by exact W.
    destruct (record_eq_dec (a, b) (s, t)) as [Eab | NE].
    + inversion Eab; subst. rewrite Hst, E. split.
      * intro H. left. congruence.
      * intros [H | H]; congruence.
    + rewrite Ho by exact NE. split.
      * auto.
      * intros [H | H]; [ | exact H ]. exfalso. apply NE. congruence.
Qed.

Lemma populate_edges_perm : forall df g,
  wf g ->
  NoDup (map edge_key df) ->
  (forall e, In e df -> edge_data g (fst (fst e)) (snd (fst e)) = None) ->
  Permutation
    (edges (populate ["label"] df g))
    (map (fun e => (fst (fst e), snd (fst e), [("label", snd e)])) df
     ++ edges g).
Proof.
  induction df as [ | [[s t] w] df IH ]; intros g W ND Hnew.
  - apply Permutation_refl.
  - rewrite populate_cons. simpl fst. simpl snd.
    inversion ND as [ | ? ? Hnot ND' ]; subst.
    destruct (populate_step_spec s t w g W) as (W' & _ & _ & _ & _ & Ho).
    eapply perm_trans.
    + apply IH; [ exact W' | exact ND' | ].
      intros [[a b] x] He. simpl. rewrite Ho.
      * apply (Hnew (a, b, x)). simpl; auto.
      * intro Eab. inversion Eab; subst. apply Hnot.
        change (s, t) with (edge_key (s, t, x)). apply in_map. exact He.
    + simpl map. simpl app. eapply perm_trans.
      * apply Permutation_app_head. apply populate_step_edges; [ exact W | ].
        apply (Hnew (s, t, w)). simpl; auto.
      * apply Permutation_sym, Permutation_middle.
Qed.

Lemma from_pandas_edgelist_edges : forall df G,
  NoDup (map edge_key df) ->
  from_pandas_edgelist df = Ok G ->
  Permutation (edges G)
    (map (fun e => (fst (fst e), snd (fst e), [("label", snd e)])) df).
Proof.
  intros df G ND HG. rewrite from_pandas_edgelist_ok in HG.
  inversion HG; subst G.
  rewrite <- (app_nil_r (map _ df)).
  apply (populate_edges_perm df empty_graph wf_empty ND).
  intros e _. reflexivity.
Qed.

(** ** Extraction of the adjacency matrix *)

(** C7 (as stated, refuted): on the graph built from the empty trace the
    extraction does not return the empty node list with a 0x0 matrix. *)
Lemma empty_trace_matrix_not_returned :
  _calltrace_to_callgraph [] = Ok empty_graph
  /\ fst (graph_to_adjacency_matrix true empty_graph)
     <> Ok ([], mkCoo (0%nat, 0%nat) [])
  /\ fst (graph_to_adjacency_matrix false empty_graph)
     <> Ok ([], mkCoo (0%nat, 0%nat) []).
Proof. repeat split; discriminate. Qed.

(** C7 (amended): the empty trace aggregates to the empty edge set without
    an error and the call graph built from it has no nodes and no edges;
    on that graph the extraction raises NetworkXError. *)
Theorem empty_trace_pipeline :
  aggregate [] = []
  /\ _calltrace_to_callgraph [] = Ok empty_graph
  /\ number_of_nodes empty_graph = 0%nat
  /\ number_of_edges empty_graph = 0%nat
  /\ fst (graph_to_adjacency_matrix true empty_graph)
     = Raise (NetworkXError "Graph has no nodes or edges")
  /\ fst (graph_to_adjacency_matrix false empty_graph)
     = Raise (NetworkXError "Graph has no nodes or edges").
Proof. repeat split. Qed.

(** C8 (as stated, refuted): the graph built from the empty frame has
    N = 0 nodes and the extraction returns no node list and matrix for
    it, with either setting of use_weights. *)
Lemma empty_graph_extraction_raises :
  from_pandas_edgelist [] = Ok empty_graph
  /\ number_of_nodes empty_graph = 0%nat
  /\ is_ok (fst (graph_to_adjacency_matrix true empty_graph)) = false
  /\ is_ok (fst (graph_to_adjacency_matrix false empty_graph)) = false.
Proof. repeat split. Qed.

(** C8 (amended): for a graph built from a frame of weighted edges that
    has N >= 1 nodes, and whose labels fit in 64 bits when use_weights is
    true, the extraction returns the node list of length N and an N x N
    matrix; cell (i, j) is 0 when there is no edge from node i to node j,
    and otherwise the edge's label when use_weights is true and 1 when it
    is false. *)
Theorem adjacency_matrix_cells : forall df G use_weights,
  from_pandas_edgelist df = Ok G ->
  (1 <= number_of_nodes G)%nat ->
  (use_weights = true -> Forall (fun e => fits_int64 (edge_weight e)) df) ->
  exists M,
    fst (graph_to_adjacency_matrix use_weights G) = Ok (_node G, M)
    /\ List.length (_node G) = number_of_nodes G
    /\ shape M = (number_of_nodes G, number_of_nodes G)
    /\ forall i j,
         (i < number_of_nodes G)%nat -> (j < number_of_nodes G)%nat ->
         (edge_data G (nth i (_node G) "") (nth j (_node G) "") = None
          /\ cell M i j = 0)
         \/ (exists w,
               edge_data G (nth i (_node G) "") (nth j (_node G) "")
               = Some [("label", w)]
               /\ cell M i j = if use_weights then w else 1).
Proof.
  intros df G use_weights HG Hne _.
  rewrite from_pandas_edgelist_ok in HG. injection HG as HG'.
  assert (W : wf G) by (subst G; apply populate_wf, wf_empty).
  assert (Hnodes : _node G <> []).
  { unfold number_of_nodes in Hne. intro E. rewrite E in Hne.
    simpl in Hne. lia. }
  destruct (to_scipy_sparse_matrix_spec G
              (if use_weights then Some "label" else None) W Hnodes)
    as (M & HM & Hshape & _ & Hcell).
  exists M. rewrite graph_to_adjacency_matrix_eq, HM. simpl fst.
  split; [ reflexivity | split; [ reflexivity | split; [ exact Hshape | ] ] ].
  intros i j Hi Hj.
  rewrite (Hcell i j (nth i (_node G) "") (nth j (_node G) ""))
    by (apply nth_error_nth'; assumption).
  destruct (edge_data G (nth i (_node G) "") (nth j (_node G) ""))
    as [d | ] eqn:E.
  - right. rewrite <- HG' in E.
    apply (populate_edges_from_rows _ _ [] wf_empty) in E.
    + destruct E as [w [Hd _]]. exists w. subst d. split; [ reflexivity | ].
      destruct use_weights; reflexivity.
    + intros a b d' H. discriminate.
  - left. split; reflexivity.
Qed.

Lemma adjacency_matrix_cells_witness :
  exists M,
    fst (graph_to_adjacency_matrix true
           (mkDiGraph ["A"; "B"]
              [("A", [("B", [("label", 3)])]); ("B", [("A", [("label", 1)])])]))
    = Ok (["A"; "B"], M)
    /\ cell M 0 1 = 3 /\ cell M 1 0 = 1 /\ cell M 0 0 = 0.
Proof.
  destruct (adjacency_matrix_cells
              [("A", "B", 3); ("B", "A", 1)]
              (mkDiGraph ["A"; "B"]
                 [("A", [("B", [("label", 3)])]);
                  ("B", [("A", [("label", 1)])])])
              true)
    as (M & HM & _ & _ & Hcell).
  - reflexivity.
  - unfold number_of_nodes. simpl. lia.
  - intros _. repeat constructor; unfold fits_int64, edge_weight; simpl; lia.
  - exists M. split; [ exact HM | ].
    assert (H0 : (0 < 2)%nat) by lia. assert (H1 : (1 < 2)%nat) by lia.
    repeat split.
    + destruct (Hcell 0%nat 1%nat H0 H1) as [[E _] | [w [E Hc]]].
      * discriminate.
      * cbn in E. injection E as Ew. rewrite <- Ew in Hc. exact Hc.
    + destruct (Hcell 1%nat 0%nat H1 H0) as [[E _] | [w [E Hc]]].
      * discriminate.
      * cbn in E. injection E as Ew. rewrite <- Ew in Hc. exact Hc.
    + destruct (Hcell 0%nat 0%nat H0 H0) as [[_ Hc] | [w [E _]]].
      * exact Hc.
      * discriminate.
Defined.

(** C9 (as stated, refuted): the empty edge set is duplicate-free, yet no
    adjacency matrix is returned for the graph built from it, so there
    is no matrix whose entries sum to the (zero) sum of its weights. *)
Lemma empty_edge_set_no_matrix_sum :
  NoDup (map edge_key [])
  /\ from_pandas_edgelist [] = Ok empty_graph
  /\ ~ (exists nl M,
          fst (graph_to_adjacency_matrix true empty_graph) = Ok (nl, M)
          /\ matrix_sum M = sum_weights [])
  /\ ~ (exists nl M,
          fst (graph_to_adjacency_matrix false empty_graph) = Ok (nl, M)
          /\ matrix_sum M = Z.of_nat (List.length (@nil WeightedEdge))).
Proof.
  split; [ constructor | split; [ reflexivity | split ] ];
    intros (nl & M & H & _); discriminate.
Qed.

(** C9 (amended): for a graph built from a non-empty duplicate-free
    frame of weighted edges, the indicator matrix is returned and its
    entries sum to the number of rows of the frame; when the labels fit
    in 64 bits the weighted matrix is returned too, and its entries sum
    to the sum of the weights of the frame. *)
Theorem adjacency_matrix_sums : forall df G,
  NoDup (map edge_key df) ->
  df <> [] ->
  from_pandas_edgelist df = Ok G ->
  exists Mu,
    fst (graph_to_adjacency_matrix false G) = Ok (_node G, Mu)
    /\ matrix_sum Mu = Z.of_nat (List.length df)
    /\ (Forall (fun e => fits_int64 (edge_weight e)) df ->
        exists Mw,
          fst (graph_to_adjacency_matrix true G) = Ok (_node G, Mw)
          /\ matrix_sum Mw = sum_weights df).
Proof.
  intros df G ND Hne HG.
  pose proof (from_pandas_edgelist_edges df G ND HG) as Hperm.
  rewrite from_pandas_edgelist_ok in HG. injection HG as HG'.
  assert (W : wf G) by (subst G; apply populate_wf, wf_empty).
  assert (Hnodes : _node G <> [])
    by (subst G; apply populate_nonempty; [ apply wf_empty | exact Hne ]).
  destruct (to_scipy_sparse_matrix_spec G (Some "label") W Hnodes)
    as (Mw & HMw & _ & Hsw & _).
  destruct (to_scipy_sparse_matrix_spec G None W Hnodes)
    as (Mu & HMu & _ & Hsu & _).
  exists Mu. rewrite !graph_to_adjacency_matrix_eq, HMw, HMu. simpl fst.
  split; [ reflexivity | split ].
  - rewrite Hsu, (Zsum_perm _ _ _ Hperm), Zsum_map.
    apply Zsum_ones.
  - intros _. exists Mw. split; [ reflexivity | ].
    rewrite Hsw, (Zsum_perm _ _ _ Hperm), Zsum_map.
    apply Zsum_ext_in. intros [[s t] w] _. reflexivity.
Qed.

Lemma adjacency_matrix_sums_witness :
  exists Mu,
    fst (graph_to_adjacency_matrix false
           (mkDiGraph ["A"; "B"]
              [("A", [("B", [("label", 3)])]); ("B", [("A", [("label", 1)])])]))
    = Ok (["A"; "B"], Mu)
    /\ matrix_sum Mu = 2
    /\ exists Mw,
         fst (graph_to_adjacency_matrix true
                (mkDiGraph ["A"; "B"]
                   [("A", [("B", [("label", 3)])]);
                    ("B", [("A", [("label", 1)])])]))
         = Ok (["A"; "B"], Mw)
         /\ matrix_sum Mw = 4.
Proof.
  destruct (adjacency_matrix_sums [("A", "B", 3); ("B", "A", 1)]
              (mkDiGraph ["A"; "B"]
                 [("A", [("B", [("label", 3)])]);
                  ("B", [("A", [("label", 1)])])]))
    as (Mu & HMu & Hsu & Hw).
  - simpl. constructor.
    + simpl. intros [H | H]; [ discriminate | exact H ].
    + constructor; [ simpl; tauto | constructor ].
  - discriminate.
  - reflexivity.
  - exists Mu. split; [ exact HMu | split; [ exact Hsu | ] ].
    apply Hw.
    repeat constructor; unfold fits_int64, edge_weight; simpl; lia.
Defined.

(** * Further properties of the conversion *)

(** ** Nodes of the built graph *)

Lemma touch_node_nodes : forall u G x,
  wf G ->
  (In x (_node (touch_node u G)) <-> x = u \/ In x (_node G)).
Proof.
  intros u G x W. pose proof W as (Hk & ND & Hin).
  unfold touch_node, dict_mem.
  destruct (dict_get String.eqb u (_succ G)) as [nbrs | ] eqn:E.
  - split; [ tauto | ]. intros [H | H]; [ | exact H ].
    subst x. rewrite <- Hk.
    apply (dict_get_Some_keys String.eqb string_eqb_iff _ _ _ E).
  - assert (Hnot : ~ In u (_node G)).
    { rewrite <- Hk. apply (dict_get_None String.eqb string_eqb_iff _ _).
      exact E. }
    simpl _node. unfold node_set.
    destruct (existsb (String.eqb u) (_node G)) eqn:X.
    + apply existsb_eqb_In in X. contradiction.
    + rewrite in_app_iff. simpl. split.
      * intros [H | [H | []]]; auto.
      * intros [H | H]; auto.
Qed.

Lemma populate_step_nodes : forall s t w G x,
  wf G ->
  (In x (_node (update_edge s t [("label", w)] (add_edge s t G)))
   <-> x = s \/ x = t \/ In x (_node G)).
Proof.
  intros s t w G x W.
  destruct (touch_node_spec s G W) as (W1 & _).
  change (_node (update_edge s t [("label", w)] (add_edge s t G)))
    with (_node (touch_node t (touch_node s G))).
  rewrite touch_node_nodes by exact W1.
  rewrite touch_node_nodes by exact W.
  tauto.
Qed.

Lemma populate_nodes : forall df g x,
  wf g ->
  (In x (_node (populate ["label"] df g))
   <-> In x (_node g)
       \/ exists s t w, In (s, t, w) df /\ (x = s \/ x = t)).
Proof.
  induction df as [ | [[s t] w] df IH ]; intros g x W.
  - simpl. split; [ auto | ]. intros [H | (a & b & c & [] & _)]. exact H.
  - rewrite populate_cons. simpl fst. simpl snd.
    destruct (populate_step_spec s t w g W) as (W' & _).
    rewrite IH by exact W'. rewrite populate_step_nodes by exact W.
    split.
    + intros [[H | [H | H]] | (a & b & c & Hin & Hx)].
      * right. exists s, t, w. simpl. auto.
      * right. exists s, t, w. simpl. auto.
      * left. exact H.
      * right. exists a, b, c. simpl. auto.
    + intros [H | (a & b & c & [Hin | Hin] & Hx)].
      * left. auto.
      * inversion Hin; subst. left. tauto.
      * right. exists a, b, c. auto.
Qed.

(** X1: node completeness.  The node list of a graph built from a frame
    of weighted edges has no node twice, and holds exactly the sources
    and targets of the rows of the frame. *)
Theorem from_pandas_edgelist_nodes : forall df,
  exists G,
    from_pandas_edgelist df = Ok G
    /\ NoDup (_node G)
    /\ forall x,
         In x (_node G)
         <-> exists s t w, In (s, t, w) df /\ (x = s \/ x = t).
Proof.
  intro df. rewrite from_pandas_edgelist_ok. eexists.
  split; [ reflexivity | split ].
  - apply (populate_wf df empty_graph wf_empty).
  - intro x. rewrite (populate_nodes df empty_graph x wf_empty).
    simpl. tauto.
Qed.

Lemma populate_step_keeps_edge : forall s t w G a b,
  wf G -> edge_data G a b <> None ->
  edge_data (update_edge s t [("label", w)] (add_edge s t G)) a b <> None.
Proof.
  intros s t w G a b W H.
  destruct (populate_step_spec s t w G W) as (_ & _ & _ & _ & Hst & Ho).
  destruct (record_eq_dec (a, b) (s, t)) as [E | NE].
  - inversion E; subst. rewrite Hst. discriminate.
  - rewrite Ho by exact NE. exact H.
Qed.

Lemma populate_keeps_edge : forall df g a b,
  wf g -> edge_data g a b <> None ->
  edge_data (populate ["label"] df g) a b <> None.
Proof.
  induction df as [ | [[s t] w] df IH ]; intros g a b W H.
  - exact H.
  - rewrite populate_cons. simpl fst. simpl snd.
    destruct (populate_step_spec s t w g W) as (W' & _).
    apply IH; [ exact W' | ].
    apply populate_step_keeps_edge; assumption.
Qed.

Lemma populate_row_edge : forall df g s t w,
  wf g -> In (s, t, w) df ->
  edge_data (populate ["label"] df g) s t <> None.
Proof.
  induction df as [ | [[a b] c] df IH ]; intros g s t w W Hin.
  - contradiction.
  - rewrite populate_cons. simpl fst. simpl snd.
    destruct (populate_step_spec a b c g W) as (W' & _ & _ & _ & Hst & _).
    destruct Hin as [Hin | Hin].
    + inversion Hin; subst. apply populate_keeps_edge; [ exact W' | ].
      rewrite Hst. discriminate.
    + apply (IH _ s t w W' Hin).
Qed.

(** X2: no isolated nodes.  Every node of a graph built from a frame of
    weighted edges is the source or the target of an edge of the
    graph. *)
Theorem from_pandas_edgelist_no_isolated_node : forall df G x,
  from_pandas_edgelist df = Ok G ->
  In x (_node G) ->
  exists u v d, In (u, v, d) (edges G) /\ (x = u \/ x = v).
Proof.
  intros df G x HG Hx. rewrite from_pandas_edgelist_ok in HG.
  injection HG as HG'. subst G.
  assert (W : wf (populate ["label"] df empty_graph))
    by apply populate_wf, wf_empty.
  apply (populate_nodes df empty_graph x wf_empty) in Hx.
  destruct Hx as [[] | (s & t & w & Hin & Hst)].
  pose proof (populate_row_edge df empty_graph s t w wf_empty Hin) as He.
  destruct (edge_data (populate ["label"] df empty_graph) s t) as [d | ] eqn:E;
    [ | congruence ].
  exists s, t, d. split; [ | exact Hst ].
  apply edges_In; assumption.
Qed.

Lemma from_pandas_edgelist_no_isolated_node_witness :
  exists u v d,
    In (u, v, d)
      (edges (mkDiGraph ["main"; "f"]
                [("main", [("f", [("label", 2)])]); ("f", [])]))
    /\ ("f" = u \/ "f" = v).
Proof.
  apply (from_pandas_edgelist_no_isolated_node [("main", "f", 2)]).
  - reflexivity.
  - simpl. auto.
Defined.

(** ** From the trace to the graph and its matrix *)

Lemma aggregate_nonempty : forall df, dropna df <> [] -> aggregate df <> [].
Proof.
  intros df Hne E. pose proof (aggregate_sum df) as Hs.
  rewrite E in Hs. simpl in Hs.
  destruct (dropna df); [ congruence | discriminate ].
Qed.

Lemma calltrace_graph_facts : forall trace_df,
  let G := populate ["label"] (aggregate trace_df) empty_graph in
  _calltrace_to_callgraph trace_df = Ok G
  /\ wf G
  /\ Permutation (edges G)
       (map (fun e => (fst (fst e), snd (fst e), [("label", snd e)]))
          (aggregate trace_df))
  /\ forall s t d,
       edge_data G s t = Some d
       <-> d = [("label", Z.of_nat (occurrences s t trace_df))]
           /\ (0 < occurrences s t trace_df)%nat.
Proof.
  intros trace_df G.
  assert (HG : _calltrace_to_callgraph trace_df = Ok G).
  { unfold _calltrace_to_callgraph. apply from_pandas_edgelist_ok. }
  assert (W : wf G) by apply populate_wf, wf_empty.
  assert (Hperm : Permutation (edges G)
            (map (fun e => (fst (fst e), snd (fst e), [("label", snd e)]))
               (aggregate trace_df))).
  { apply from_pandas_edgelist_edges.
    - apply aggregate_keys_NoDup.
    - apply from_pandas_edgelist_ok. }
  split; [ exact HG | split; [ exact W | split; [ exact Hperm | ] ] ].
  intros s t d. rewrite <- (edges_In G s t d W). split.
  - intro H. apply (Permutation_in _ Hperm) in H.
    apply in_map_iff in H. destruct H as [[[a b] w] [Heq Hin]].
    simpl in Heq. inversion Heq; subst.
    apply aggregate_In in Hin. destruct Hin as [Hw Hpos].
    split; [ congruence | lia ].
  - intros [Hd Hpos]. apply (Permutation_in _ (Permutation_sym Hperm)).
    apply in_map_iff. exists (s, t, Z.of_nat (occurrences s t trace_df)).
    split; [ simpl; congruence | ].
    apply aggregate_In. split; [ reflexivity | lia ].
Qed.

(** X3: the call graph reproduces the trace.  The conversion succeeds on
    every trace; the graph has an edge s -> t exactly when some row of the
    trace holds the pair (s, t), and the edge's only attribute is [label],
    the number of such rows. *)
Theorem calltrace_edge_labels : forall trace_df,
  exists G,
    _calltrace_to_callgraph trace_df = Ok G
    /\ forall s t d,
         edge_data G s t = Some d
         <-> d = [("label", Z.of_nat (occurrences s t trace_df))]
             /\ (0 < occurrences s t trace_df)%nat.
Proof.
  intro trace_df.
  destruct (calltrace_graph_facts trace_df) as (HG & _ & _ & Hlab).
  eexists. split; [ exact HG | exact Hlab ].
Qed.

Lemma calltrace_matrix_aux : forall trace_df use_weights,
  dropna trace_df <> [] ->
  let G := populate ["label"] (aggregate trace_df) empty_graph in
  exists M,
    fst (graph_to_adjacency_matrix use_weights G) = Ok (_node G, M)
    /\ shape M = (number_of_nodes G, number_of_nodes G)
    /\ forall i j,
         (i < number_of_nodes G)%nat -> (j < number_of_nodes G)%nat ->
         cell M i j
         = if use_weights
           then Z.of_nat
                  (occurrences (nth i (_node G) "") (nth j (_node G) "")
                     trace_df)
           else if Nat.ltb 0
                     (occurrences (nth i (_node G) "") (nth j (_node G) "")
                        trace_df)
                then 1 else 0.
Proof.
  intros trace_df use_weights Hne.
  destruct (calltrace_graph_facts trace_df) as (HG & W & _ & Hlab).
  intro G. fold G in HG, W, Hlab.
  assert (Hnodes : _node G <> []).
  { apply populate_nonempty; [ apply wf_empty | ].
    apply aggregate_nonempty, Hne. }
  destruct (to_scipy_sparse_matrix_spec G
              (if use_weights then Some "label" else None) W Hnodes)
    as (M & HM & Hshape & _ & Hcell).
  exists M.
  rewrite graph_to_adjacency_matrix_eq, HM. simpl fst.
  split; [ reflexivity | split; [ exact Hshape | ] ].
  intros i j Hi Hj.
  rewrite (Hcell i j (nth i (_node G) "") (nth j (_node G) ""))
    by (apply nth_error_nth'; assumption).
  set (ni := nth i (_node G) ""). set (nj := nth j (_node G) "").
  destruct (edge_data G ni nj) as [d | ] eqn:E.
  - apply Hlab in E. destruct E as [Hd Hpos]. subst d.
    destruct use_weights.
    + reflexivity.
    + apply Nat.ltb_lt in Hpos. rewrite Hpos. reflexivity.
  - destruct (Nat.ltb 0 (occurrences ni nj trace_df)) eqn:Hpos.
    + apply Nat.ltb_lt in Hpos.
      assert (Hsome : edge_data G ni nj
                      = Some [("label",
                               Z.of_nat (occurrences ni nj trace_df))])
        by (apply Hlab; auto).
      congruence.
    + apply Nat.ltb_ge in Hpos.
      assert (Hz : occurrences ni nj trace_df = 0%nat) by lia.
      rewrite Hz. destruct use_weights; reflexivity.
Qed.

(** X4: the adjacency matrix counts calls.  For a trace with at least
    one complete row, the graph of the trace has a matrix, and its cell
    (i, j) is the number of rows of the trace holding the pair
    (NodeList[i], NodeList[j]) when use_weights is true, and 1 or 0
    according to whether there is such a row when it is false. *)
Theorem calltrace_matrix_counts : forall trace_df use_weights,
  dropna trace_df <> [] ->
  exists G M,
    _calltrace_to_callgraph trace_df = Ok G
    /\ fst (graph_to_adjacency_matrix use_weights G) = Ok (_node G, M)
    /\ forall i j,
         (i < number_of_nodes G)%nat -> (j < number_of_nodes G)%nat ->
         cell M i j
         = if use_weights
           then Z.of_nat
                  (occurrences (nth i (_node G) "") (nth j (_node G) "")
                     trace_df)
           else if Nat.ltb 0
                     (occurrences (nth i (_node G) "") (nth j (_node G) "")
                        trace_df)
                then 1 else 0.
Proof.
  intros trace_df use_weights Hne.
  destruct (calltrace_matrix_aux trace_df use_weights Hne)
    as (M & HM & _ & Hcell).
  exists (populate ["label"] (aggregate trace_df) empty_graph), M.
  split; [ apply calltrace_graph_facts | split; [ exact HM | exact Hcell ] ].
Qed.

Lemma calltrace_matrix_counts_witness :
  exists G M,
    _calltrace_to_callgraph
      [(Some "main", Some "f"); (Some "f", None); (Some "main", Some "f")]
    = Ok G
    /\ fst (graph_to_adjacency_matrix true G) = Ok (_node G, M)
    /\ forall i j,
         (i < number_of_nodes G)%nat -> (j < number_of_nodes G)%nat ->
         cell M i j
         = Z.of_nat
             (occurrences (nth i (_node G) "") (nth j (_node G) "")
                [(Some "main", Some "f"); (Some "f", None);
                 (Some "main", Some "f")]).
Proof.
  apply (calltrace_matrix_counts
           [(Some "main", Some "f"); (Some "f", None);
            (Some "main", Some "f")] true).
  simpl. discriminate.
Defined.

(** X5: totals of the matrices.  For a trace with at least one complete
    row, the entries of the weighted matrix add up to the number of
    complete rows of the trace, and the entries of the indicator matrix
    add up to the number of edges of the graph, which is the number of
    aggregated (source, target) pairs. *)
Theorem calltrace_matrix_totals : forall trace_df,
  dropna trace_df <> [] ->
  exists G Mw Mu,
    _calltrace_to_callgraph trace_df = Ok G
    /\ fst (graph_to_adjacency_matrix true G) = Ok (_node G, Mw)
    /\ fst (graph_to_adjacency_matrix false G) = Ok (_node G, Mu)
    /\ matrix_sum Mw = Z.of_nat (List.length (dropna trace_df))
    /\ matrix_sum Mu = Z.of_nat (number_of_edges G)
    /\ number_of_edges G = List.length (aggregate trace_df).
Proof.
  intros trace_df Hne.
  destruct (calltrace_graph_facts trace_df) as (HG & W & Hperm & _).
  set (G := populate ["label"] (aggregate trace_df) empty_graph) in *.
  assert (Hnodes : _node G <> []).
  { apply populate_nonempty; [ apply wf_empty | ].
    apply aggregate_nonempty, Hne. }
  destruct (to_scipy_sparse_matrix_spec G (Some "label") W Hnodes)
    as (Mw & HMw & _ & Hsw & _).
  destruct (to_scipy_sparse_matrix_spec G None W Hnodes)
    as (Mu & HMu & _ & Hsu & _).
  exists G, Mw, Mu. rewrite !graph_to_adjacency_matrix_eq, HMw, HMu.
  simpl fst.
  split; [ exact HG | split; [ reflexivity | split; [ reflexivity | ] ] ].
  split; [ | split ].
  - rewrite Hsw, (Zsum_perm _ _ _ Hperm), Zsum_map, <- aggregate_sum.
    apply Zsum_ext_in. intros [[s t] w] _. reflexivity.
  - rewrite Hsu. unfold number_of_edges. apply Zsum_ones.
  - unfold number_of_edges. rewrite (Permutation_length Hperm).
    apply length_map.
Qed.

Lemma calltrace_matrix_totals_witness :
  exists G Mw Mu,
    _calltrace_to_callgraph
      [(Some "main", Some "f"); (Some "f", None); (Some "main", Some "f")]
    = Ok G
    /\ fst (graph_to_adjacency_matrix true G) = Ok (_node G, Mw)
    /\ fst (graph_to_adjacency_matrix false G) = Ok (_node G, Mu)
    /\ matrix_sum Mw = 2
    /\ matrix_sum Mu = Z.of_nat (number_of_edges G)
    /\ number_of_edges G = 1%nat.
Proof.
  apply (calltrace_matrix_totals
           [(Some "main", Some "f"); (Some "f", None);
            (Some "main", Some "f")]).
  simpl. discriminate.
Defined.

(** ** The order of the aggregated edges *)

Lemma ascii_compare_refl : forall a, Ascii.compare a a = Eq.
Proof. intro a. unfold Ascii.compare. apply N.compare_refl. Qed.

Lemma ascii_compare_lt_trans : forall a b c,
  Ascii.compare a b = Lt -> Ascii.compare b c = Lt -> Ascii.compare a c = Lt.
Proof.
  unfold Ascii.compare. intros a b c H1 H2.
  rewrite N.compare_lt_iff in *. eapply N.lt_trans; eassumption.
Qed.

Lemma string_compare_refl : forall s, String.compare s s = Eq.
Proof.
  induction s as [ | a s IH ]; simpl.
  - reflexivity.
  - rewrite ascii_compare_refl. exact IH.
Qed.

Lemma string_compare_lt_trans : forall a b c,
  String.compare a b = Lt -> String.compare b c = Lt ->
  String.compare a c = Lt.
Proof.
  induction a as [ | x a IH ]; intros [ | y b ] [ | z c ] H1 H2;
    simpl in *; try discriminate; try reflexivity.
  destruct (Ascii.compare x y) eqn:Exy; try discriminate;
    destruct (Ascii.compare y z) eqn:Eyz; try discriminate.
  - apply Ascii.compare_eq_iff in Exy, Eyz. subst.
    rewrite ascii_compare_refl. eapply IH; eassumption.
  - apply Ascii.compare_eq_iff in Exy. subst. rewrite Eyz. reflexivity.
  - apply Ascii.compare_eq_iff in Eyz. subst. rewrite Exy. reflexivity.
  - rewrite (ascii_compare_lt_trans x y z Exy Eyz). reflexivity.
Qed.

Lemma string_leb_iff : forall a b,
  String.leb a b = true <-> String.compare a b = Lt \/ a = b.
Proof.
  intros a b. unfold String.leb. split.
  - destruct (String.compare a b) eqn:E; try discriminate; auto.
    apply String.compare_eq_iff in E. auto.
  - intros [H | H].
    + rewrite H. reflexivity.
    + subst. rewrite string_compare_refl. reflexivity.
Qed.

Lemma string_leb_trans : forall a b c,
  String.leb a b = true -> String.leb b c = true -> String.leb a c = true.
Proof.
  intros a b c H1 H2. rewrite string_leb_iff in *.
  destruct H1 as [H1 | H1], H2 as [H2 | H2]; subst; auto.
  left. eapply string_compare_lt_trans; eassumption.
Qed.

Lemma key_leb_total : forall a b, key_leb a b = true \/ key_leb b a = true.
Proof.
  intros [s1 t1] [s2 t2]. unfold key_leb. simpl.
  rewrite (String.compare_antisym s2 s1).
  destruct (String.compare s1 s2); simpl; auto.
  apply String.leb_total.
Qed.

Lemma key_leb_trans : forall a b c,
  key_leb a b = true -> key_leb b c = true -> key_leb a c = true.
Proof.
  intros [s1 t1] [s2 t2] [s3 t3]. unfold key_leb. simpl.
  destruct (String.compare s1 s2) eqn:E12; try discriminate;
    destruct (String.compare s2 s3) eqn:E23; try discriminate;
    intros H1 H2.
  - apply String.compare_eq_iff in E12, E23. subst.
    rewrite string_compare_refl. eapply string_leb_trans; eassumption.
  - apply String.compare_eq_iff in E12. subst. rewrite E23. reflexivity.
  - apply String.compare_eq_iff in E23. subst. rewrite E12. reflexivity.
  - rewrite (string_compare_lt_trans s1 s2 s3 E12 E23). reflexivity.
Qed.

Lemma key_leb_antisym : forall a b,
  key_leb a b = true -> key_leb b a = true -> a = b.
Proof.
  intros [s1 t1] [s2 t2]. unfold key_leb. simpl.
  rewrite (String.compare_antisym s2 s1).
  destruct (String.compare s1 s2) eqn:E; simpl; try discriminate.
  apply String.compare_eq_iff in E. subst.
  intros H1 H2. f_equal. apply String.leb_antisym; assumption.
Qed.

Section SortedGroups.
Context {V : Type}.

Let by_key (g h : CallRecord * V) : Prop := key_leb (fst g) (fst h) = true.

Lemma by_key_sorted_perm_eq : forall l1 l2 : list (CallRecord * V),
  StronglySorted by_key l1 -> StronglySorted by_key l2 ->
  Permutation l1 l2 -> NoDup (keys l1) -> l1 = l2.
Proof.
  induction l1 as [ | a l1 IH ]; intros l2 S1 S2 P ND.
  - apply Permutation_nil in P. congruence.
  - destruct l2 as [ | b l2 ].
    + apply Permutation_sym, Permutation_nil in P. discriminate.
    + apply StronglySorted_inv in S1. destruct S1 as [S1 F1].
      apply StronglySorted_inv in S2. destruct S2 as [S2 F2].
      rewrite Forall_forall in F1, F2.
      assert (Hab : a = b).
      { assert (Ha : In a (b :: l2))
          by (apply (Permutation_in _ P); simpl; auto).
        assert (Hb : In b (a :: l1))
          by (apply (Permutation_in _ (Permutation_sym P)); simpl; auto).
        destruct Ha as [Ha | Ha]; [ congruence | ].
        destruct Hb as [Hb | Hb]; [ congruence | ].
        assert (Hk : fst a = fst b)
          by (apply key_leb_antisym; [ apply F1, Hb | apply F2, Ha ]).
        exfalso. simpl in ND. inversion ND as [ | ? ? Hnot _ ]; subst.
        apply Hnot. rewrite Hk. apply in_map. exact Hb. }
      subst b. f_equal. apply IH; auto.
      * apply (Permutation_cons_inv P).
      * simpl in ND. inversion ND; assumption.
Qed.

End SortedGroups.

Lemma insert_group_sorted : forall g gs,
  StronglySorted (fun a b => key_leb (fst a) (fst b) = true) gs ->
  StronglySorted (fun a b => key_leb (fst a) (fst b) = true)
    (insert_group g gs).
Proof.
  intros g gs. induction gs as [ | h gs IH ]; intro S; simpl.
  - constructor; constructor.
  - apply StronglySorted_inv in S. destruct S as [S F].
    destruct (key_leb (fst g) (fst h)) eqn:E.
    + constructor; [ constructor; assumption | ].
      constructor; [ exact E | ].
      rewrite Forall_forall in *. intros x Hx.
      eapply key_leb_trans; [ exact E | apply F, Hx ].
    + constructor; [ apply IH, S | ].
      apply (Permutation_Forall (insert_group_perm g gs)).
      constructor; [ | exact F ].
      destruct (key_leb_total (fst g) (fst h)) as [H | H];
        [ congruence | exact H ].
Qed.

Lemma sort_groups_sorted : forall gs,
  StronglySorted (fun a b => key_leb (fst a) (fst b) = true) (sort_groups gs).
Proof.
  induction gs as [ | g gs IH ]; simpl.
  - constructor.
  - apply insert_group_sorted, IH.
Qed.

Lemma dropna_perm : forall df df',
  Permutation df df' -> Permutation (dropna df) (dropna df').
Proof.
  intros df df' H. unfold dropna. apply Permutation_flat_map. exact H.
Qed.

Lemma group_sizes_perm : forall ks ks',
  Permutation ks ks' -> Permutation (group_sizes ks) (group_sizes ks').
Proof.
  intros ks ks' H. apply NoDup_Permutation.
  - apply (NoDup_map_inv fst). apply (group_sizes_inv ks).
  - apply (NoDup_map_inv fst). apply (group_sizes_inv ks').
  - intros [k c]. rewrite !group_sizes_In.
    rewrite (proj1 (Permutation_count_occ record_eq_dec ks ks') H k). tauto.
Qed.

(** X7: the conversion does not depend on the order of the rows.  Two
    traces with the same rows in a different order give the same frame of
    aggregated edges, in the same order, and the same graph, with the
    same node order. *)
Theorem calltrace_order_independent : forall trace_df trace_df',
  Permutation trace_df trace_df' ->
  aggregate trace_df = aggregate trace_df'
  /\ _calltrace_to_callgraph trace_df = _calltrace_to_callgraph trace_df'.
Proof.
  intros trace_df trace_df' H.
  assert (Hagg : aggregate trace_df = aggregate trace_df').
  { unfold aggregate, groupby_size. f_equal.
    apply by_key_sorted_perm_eq.
    - apply sort_groups_sorted.
    - apply sort_groups_sorted.
    - eapply perm_trans; [ apply Permutation_sym, sort_groups_perm | ].
      eapply perm_trans; [ | apply sort_groups_perm ].
      apply group_sizes_perm, dropna_perm, H.
    - eapply Permutation_NoDup.
      + apply Permutation_map, sort_groups_perm.
      + apply (group_sizes_inv (dropna trace_df)). }
  split; [ exact Hagg | ].
  unfold _calltrace_to_callgraph. rewrite Hagg. reflexivity.
Qed.

Lemma calltrace_order_independent_witness :
  aggregate [(Some "g", Some "h"); (Some "f", Some "g")]
  = aggregate [(Some "f", Some "g"); (Some "g", Some "h")]
  /\ _calltrace_to_callgraph [(Some "g", Some "h"); (Some "f", Some "g")]
     = _calltrace_to_callgraph [(Some "f", Some "g"); (Some "g", Some "h")].
Proof.
  apply calltrace_order_independent. apply perm_swap.
Defined.

(** * The methods that touch the host *)

(** ** Running the selected test input *)

Section RunInputs.
Variable h : Host.
Variables binary opt_flags : string.

Lemma run_inputs_skip : forall seed_id items df (w : World h),
  (forall p, In p items -> Z.of_nat (fst p) <> seed_id) ->
  run_inputs h binary opt_flags seed_id items df w = (Return df, w).
Proof.
  intros seed_id items df w. induction items as [ | [n x] items IH ];
    intro Hskip; simpl.
  - reflexivity.
  - assert (Hn : Z.eqb (Z.of_nat n) seed_id = false).
    { apply Z.eqb_neq. apply (Hskip (n, x)). simpl. auto. }
    rewrite Hn. simpl. apply IH.
    intros p Hp. apply Hskip. simpl. auto.
Qed.

Lemma run_inputs_hit : forall xs a i x df (w : World h),
  nth_error xs i = Some x ->
  run_inputs h binary opt_flags (Z.of_nat (a + i))
    (combine (seq a (List.length xs)) xs) df w
  = match subprocess_run h w binary opt_flags x with
    | (Some e, w') => (Throw (HostError e), w')
    | (None, w') =>
        match read_csv h w' "callgraph.csv" with
        | inl e => (Throw (HostError e), w')
        | inr call_trace => (Return (df ++ call_trace)%list, w')
        end
    end.
Proof.
  induction xs as [ | y xs IH ]; intros a i x df w Hnth.
  - destruct i; discriminate.
  - destruct i as [ | i ]; simpl in Hnth.
    + injection Hnth as Hy. subst y. simpl.
      rewrite Nat.add_0_r, Z.eqb_refl. simpl.
      destruct (subprocess_run h w binary opt_flags x) as [[e | ] w'];
        [ reflexivity | ].
      destruct (read_csv h w' "callgraph.csv") as [e | call_trace];
        [ reflexivity | ].
      apply run_inputs_skip. intros [n z] Hp. simpl.
      apply in_combine_l in Hp. apply in_seq in Hp. lia.
    + simpl.
      assert (Hn : Z.eqb (Z.of_nat a) (Z.of_nat (a + S i)) = false)
        by (apply Z.eqb_neq; lia).
      rewrite Hn. simpl.
      replace (a + S i)%nat with (S a + i)%nat by lia.
      apply IH. exact Hnth.
Qed.

End RunInputs.

(** X8: only the selected input is run.  When both paths exist and
    seed_id is the position of a test input in the listing, the binary is
    run once, on that input; an exception of the run or of reading
    [callgraph.csv] is passed on, and otherwise the result is the call
    graph of the trace read after that run. *)
Theorem get_dynamic_call_graph_selected :
  forall (h : Host) self opt_flags i x (w : World h),
    path_exists h w (binary_path self) = true ->
    path_exists h w (test_input_path self) = true ->
    nth_error (glob_star h w (test_input_path self)) i = Some x ->
    get_dynamic_call_graph h self opt_flags (Z.of_nat i) w
    = match subprocess_run h w (binary_path self) opt_flags x with
      | (Some e, w') => (Throw (HostError e), w')
      | (None, w') =>
          match read_csv h w' "callgraph.csv" with
          | inl e => (Throw (HostError e), w')
          | inr call_trace =>
              (match _calltrace_to_callgraph call_trace with
               | Ok G => Return G
               | Raise e => Throw (GraphError e)
               end, w')
          end
      end.
Proof.
  intros h self opt_flags i x w Hb Ht Hnth.
  unfold get_dynamic_call_graph, enumerate. rewrite Hb, Ht. simpl negb.
  cbv iota.
  pose proof (run_inputs_hit h (binary_path self) opt_flags _ 0%nat i x []
                w Hnth) as Hhit.
  change (0 + i)%nat with i in Hhit. rewrite Hhit. clear Hhit.
  destruct (subprocess_run h w (binary_path self) opt_flags x)
    as [[e | ] w']; [ reflexivity | ].
  destruct (read_csv h w' "callgraph.csv") as [e | call_trace];
    reflexivity.
Qed.

Lemma get_dynamic_call_graph_selected_witness :
  get_dynamic_call_graph example_host
    (__init__ "bin/target" "inputs" "") "" (Z.of_nat 1) []
  = (Return (mkDiGraph ["main"; "f"]
               [("main", [("f", [("label", 2)])]); ("f", [])]),
     ["inputs/b"]).
Proof.
  apply (get_dynamic_call_graph_selected example_host
           (__init__ "bin/target" "inputs" "") "" 1 "inputs/b" []);
    reflexivity.
Defined.

(** X9: a seed outside the listing runs nothing.  When both paths exist
    and seed_id is negative or not below the number of test inputs, the
    binary is never run, the host is left as it was, and the result is
    the graph with no nodes and no edges. *)
Theorem get_dynamic_call_graph_out_of_range :
  forall (h : Host) self opt_flags seed_id (w : World h),
    path_exists h w (binary_path self) = true ->
    path_exists h w (test_input_path self) = true ->
    (seed_id < 0
     \/ Z.of_nat (List.length (glob_star h w (test_input_path self)))
        <= seed_id) ->
    get_dynamic_call_graph h self opt_flags seed_id w
    = (Return empty_graph, w).
Proof.
  intros h self opt_flags seed_id w Hb Ht Hout.
  unfold get_dynamic_call_graph, enumerate. rewrite Hb, Ht. simpl negb.
  cbv iota. rewrite run_inputs_skip.
  - reflexivity.
  - intros [n z] Hp. simpl.
    apply in_combine_l in Hp. apply in_seq in Hp. lia.
Qed.

Lemma get_dynamic_call_graph_out_of_range_witness :
  get_dynamic_call_graph example_host
    (__init__ "bin/target" "inputs" "") "" 2 []
  = (Return empty_graph, []).
Proof.
  apply (get_dynamic_call_graph_out_of_range example_host
           (__init__ "bin/target" "inputs" "") "" 2 []).
  - reflexivity.
  - reflexivity.
  - right. simpl. lia.
Defined.

(** ** Cleaning up *)

Lemma dict_get_removed : forall (f g : string) (fs : FS),
  dict_get String.eqb g
    (filter (fun p => negb (String.eqb (fst p) f)) fs)
  = if String.eqb g f then None else dict_get String.eqb g fs.
Proof.
  intros f g fs. induction fs as [ | [k v] fs IH ]; simpl.
  - destruct (String.eqb g f); reflexivity.
  - destruct (String.eqb k f) eqn:Ek; simpl.
    + apply String.eqb_eq in Ek. subst k. rewrite IH.
      destruct (String.eqb g f); reflexivity.
    + destruct (String.eqb g k) eqn:Eg.
      * apply String.eqb_eq in Eg. subst g. rewrite Ek. reflexivity.
      * exact IH.
Qed.

Lemma fs_exists_removed : forall (f g : string) (fs : FS),
  fs_exists g (filter (fun p => negb (String.eqb (fst p) f)) fs)
  = if String.eqb g f then false else fs_exists g fs.
Proof.
  intros f g fs. unfold fs_exists. rewrite dict_get_removed.
  destruct (String.eqb g f); reflexivity.
Qed.

(** What [os.remove] does to an entry that exists. *)
Lemma os_remove_cases : forall f fs,
  fs_exists f fs = true ->
  exists e,
    dict_get String.eqb f fs = Some e /\ entry_exists e = true
    /\ ((removable e = true
         /\ os_remove f fs
            = inr (filter (fun p => negb (String.eqb (fst p) f)) fs))
        \/ (removable e = false
            /\ (os_remove f fs = inl (IsADirectoryError f)
                \/ os_remove f fs = inl (PermissionError f)))).
Proof.
  intros f fs H. unfold fs_exists in H. unfold os_remove, removable.
  destruct (dict_get String.eqb f fs) as [e | ]; [ | discriminate ].
  exists e. split; [ reflexivity | split; [ exact H | ] ].
  destruct (kind e); destruct (protected e); simpl; auto.
Qed.


Lemma clean_up_result : forall files fs fs',
  clean_up files fs = (None, fs') ->
  forall g,
    dict_get String.eqb g fs'
    = if existsb (String.eqb g) files && fs_exists g fs then None
      else dict_get String.eqb g fs.
Proof.
  induction files as [ | f files IH ]; intros fs fs' H g; simpl in H.
  - injection H as H. subst. reflexivity.
  - simpl existsb. destruct (fs_exists f fs) eqn:Ex.
    + destruct (os_remove_cases f fs Ex)
        as (e & Hget & Hex & [[Hrem Hos] | [Hrem Hos]]).
      * rewrite Hos in H. rewrite (IH _ _ H g).
        rewrite fs_exists_removed, dict_get_removed.
        destruct (String.eqb g f) eqn:Eg; simpl.
        -- apply String.eqb_eq in Eg. subst g. rewrite Ex.
           rewrite andb_false_r. reflexivity.
        -- reflexivity.
      * destruct Hos as [Hos | Hos]; rewrite Hos in H; discriminate.
    + rewrite (IH _ _ H g).
      destruct (String.eqb g f) eqn:Eg; simpl; [ | reflexivity ].
      apply String.eqb_eq in Eg. subst g. rewrite Ex.
      rewrite andb_false_r. reflexivity.
Qed.

Lemma clean_up_leaves_none : forall files fs fs' f,
  clean_up files fs = (None, fs') ->
  In f files -> fs_exists f fs' = false.
Proof.
  intros files fs fs' f H Hin. unfold fs_exists at 1.
  rewrite (clean_up_result _ _ _ H f).
  rewrite (proj2 (existsb_eqb_In f files) Hin). simpl.
  destruct (fs_exists f fs) eqn:Ex; [ reflexivity | exact Ex ].
Qed.

Lemma clean_up_absent : forall files fs,
  (forall f, In f files -> fs_exists f fs = false) ->
  clean_up files fs = (None, fs).
Proof.
  induction files as [ | f files IH ]; intros fs H; simpl.
  - reflexivity.
  - rewrite (H f) by (simpl; auto).
    apply IH. intros f' Hf'. apply H. simpl. auto.
Qed.




(** X12: cleaning up twice is cleaning up once.  After an [__exit__]
    that raised nothing, a second [__exit__] raises nothing and leaves
    the working directory as the first one left it. *)
Theorem exit_idempotent : forall self fs fs',
  __exit__ self fs = (None, fs') ->
  __exit__ self fs' = (None, fs').
Proof.
  intros self fs fs' H. unfold __exit__ in *.
  apply clean_up_absent. intros f Hin.
  apply (clean_up_leaves_none _ _ _ f H Hin).
Qed.

Lemma exit_idempotent_witness :
  __exit__ (__init__ "bin/target" "inputs" "")
    [("notes.txt", mkEntry RegularFile false)]
  = (None, [("notes.txt", mkEntry RegularFile false)]).
Proof.
  apply (exit_idempotent (__init__ "bin/target" "inputs" "")
           [("callgraph.csv", mkEntry RegularFile false);
            ("notes.txt", mkEntry RegularFile false)]).
  reflexivity.
Defined.

(** * Row and column sums of the weighted matrix *)

Lemma Zsum_seq_nth : forall (f : string -> Z) (l : list string),
  Zsum (fun j => f (nth j l "")) (seq 0 (List.length l)) = Zsum f l.
Proof.
  intros f l. induction l as [ | a l IH ].
  - reflexivity.
  - simpl List.length. simpl seq. rewrite <- seq_shift.
    simpl Zsum at 1. rewrite Zsum_map. simpl nth. rewrite IH. reflexivity.
Qed.

Lemma Zsum_string_indicator : forall (b : string) (x : Z) l,
  NoDup l -> In b l ->
  Zsum (fun t => if String.eqb b t then x else 0) l = x.
Proof.
  intros b x l ND. induction ND as [ | a l Hnot ND IH ]; intro Hin.
  - contradiction.
  - simpl. destruct (String.eqb b a) eqn:E.
    + apply String.eqb_eq in E. subst.
      rewrite Zsum_zero; [ lia | ].
      intros y Hy. destruct (String.eqb a y) eqn:E'; [ | reflexivity ].
      apply String.eqb_eq in E'. subst. contradiction.
    + apply String.eqb_neq in E. destruct Hin as [Hin | Hin]; [ congruence | ].
      rewrite IH by exact Hin. lia.
Qed.

(** Counting the records selected by [sel] one key [mk t] at a time. *)
Lemma count_marginal : forall (mk : string -> CallRecord)
                              (sel : CallRecord -> bool)
                              (proj : CallRecord -> string)
                              (ks : list CallRecord) (l : list string),
  (forall r, sel r = true -> r = mk (proj r)) ->
  (forall t, sel (mk t) = true /\ proj (mk t) = t) ->
  NoDup l ->
  (forall r, In r ks -> sel r = true -> In (proj r) l) ->
  Zsum (fun t => Z.of_nat (count_occ record_eq_dec ks (mk t))) l
  = Z.of_nat (List.length (filter sel ks)).
Proof.
  intros mk sel proj ks l Hsel Hmk ND. induction ks as [ | r ks IH ]; intro Hin.
  - simpl. apply Zsum_zero. reflexivity.
  - assert (IH' : Zsum (fun t => Z.of_nat (count_occ record_eq_dec ks (mk t))) l
                  = Z.of_nat (List.length (filter sel ks))).
    { apply IH. intros r' Hr'. apply Hin. simpl. auto. }
    rewrite (Zsum_ext_in _
               (fun t => (if String.eqb (proj r) t
                          then (if sel r then 1 else 0) else 0)
                         + Z.of_nat (count_occ record_eq_dec ks (mk t)))).
    + rewrite Zsum_plus, IH'. simpl filter.
      destruct (sel r) eqn:Es.
      * rewrite Zsum_string_indicator;
          [ simpl List.length; lia | exact ND | ].
        apply (Hin r); simpl; auto.
      * rewrite Zsum_zero; [ lia | ].
        intros t _. destruct (String.eqb (proj r) t); reflexivity.
    + intros t _. destruct (record_eq_dec r (mk t)) as [E | NE].
      * rewrite count_occ_cons_eq by exact E. subst r.
        destruct (Hmk t) as [Hs Hp]. rewrite Hs, Hp, String.eqb_refl. lia.
      * rewrite count_occ_cons_neq by exact NE.
        destruct (String.eqb (proj r) t) eqn:Ep; [ | lia ].
        destruct (sel r) eqn:Es; [ | lia ].
        apply String.eqb_eq in Ep. exfalso. apply NE.
        rewrite (Hsel r Es). congruence.
Qed.

Lemma calltrace_nodes_cover : forall trace_df s t,
  In (s, t) (dropna trace_df) ->
  In s (_node (populate ["label"] (aggregate trace_df) empty_graph))
  /\ In t (_node (populate ["label"] (aggregate trace_df) empty_graph)).
Proof.
  intros trace_df s t Hin.
  assert (Hocc : (0 < occurrences s t trace_df)%nat).
  { rewrite <- dropna_count.
    apply (proj1 (count_occ_In record_eq_dec _ _)). exact Hin. }
  assert (He : In (s, t, Z.of_nat (occurrences s t trace_df))
                 (aggregate trace_df)).
  { apply aggregate_In. split; [ reflexivity | lia ]. }
  split; apply (populate_nodes _ empty_graph _ wf_empty); right;
    exists s, t, (Z.of_nat (occurrences s t trace_df)); auto.
Qed.

(** X13: row and column sums count calls.  For a trace with at least one
    complete row, row i of the weighted matrix adds up to the number of
    complete rows of the trace whose source is NodeList[i], and column j
    adds up to the number of complete rows whose target is
    NodeList[j]. *)
Theorem calltrace_matrix_marginals : forall trace_df,
  dropna trace_df <> [] ->
  exists G M,
    _calltrace_to_callgraph trace_df = Ok G
    /\ fst (graph_to_adjacency_matrix true G) = Ok (_node G, M)
    /\ (forall i, (i < number_of_nodes G)%nat ->
          row_sum M i = Z.of_nat (calls_from (nth i (_node G) "") trace_df))
    /\ (forall j, (j < number_of_nodes G)%nat ->
          col_sum M j = Z.of_nat (calls_to (nth j (_node G) "") trace_df)).
Proof.
  intros trace_df Hne.
  destruct (calltrace_graph_facts trace_df) as (HG & W & _ & _).
  destruct (calltrace_matrix_aux trace_df true Hne)
    as (M & HM & Hshape & Hcell).
  set (G := populate ["label"] (aggregate trace_df) empty_graph) in *.
  exists G, M. split; [ exact HG | split; [ exact HM | ] ].
  assert (ND : NoDup (_node G)) by apply W.
  split.
  - intros i Hi. unfold row_sum. rewrite Hshape. simpl snd.
    rewrite (Zsum_ext_in _
               (fun j => Z.of_nat
                           (occurrences (nth i (_node G) "")
                              (nth j (_node G) "") trace_df)))
      by (intros j Hj; apply in_seq in Hj; apply Hcell; [ exact Hi | lia ]).
    unfold number_of_nodes.
    rewrite (Zsum_seq_nth
               (fun t => Z.of_nat
                           (occurrences (nth i (_node G) "") t trace_df))).
    rewrite (Zsum_ext_in _
               (fun t => Z.of_nat
                           (count_occ record_eq_dec (dropna trace_df)
                              (nth i (_node G) "", t))))
      by (intros t _; rewrite dropna_count; reflexivity).
    unfold calls_from.
    apply (count_marginal (fun t => (nth i (_node G) "", t)) _ snd).
    + intros [a b] Hr. simpl in *. apply String.eqb_eq in Hr. congruence.
    + intro t. simpl. split; [ apply String.eqb_refl | reflexivity ].
    + exact ND.
    + intros [a b] Hin _. simpl.
      apply (calltrace_nodes_cover trace_df a b Hin).
  - intros j Hj. unfold col_sum. rewrite Hshape. simpl fst.
    rewrite (Zsum_ext_in _
               (fun i => Z.of_nat
                           (occurrences (nth i (_node G) "")
                              (nth j (_node G) "") trace_df)))
      by (intros i Hi; apply in_seq in Hi; apply Hcell; [ lia | exact Hj ]).
    unfold number_of_nodes.
    rewrite (Zsum_seq_nth
               (fun s => Z.of_nat
                           (occurrences s (nth j (_node G) "") trace_df))).
    rewrite (Zsum_ext_in _
               (fun s => Z.of_nat
                           (count_occ record_eq_dec (dropna trace_df)
                              (s, nth j (_node G) ""))))
      by (intros s _; rewrite dropna_count; reflexivity).
    unfold calls_to.
    apply (count_marginal (fun s => (s, nth j (_node G) "")) _ fst).
    + intros [a b] Hr. simpl in *. apply String.eqb_eq in Hr. congruence.
    + intro s. simpl. split; [ apply String.eqb_refl | reflexivity ].
    + exact ND.
    + intros [a b] Hin _. simpl.
      apply (calltrace_nodes_cover trace_df a b Hin).
Qed.

Lemma calltrace_matrix_marginals_witness :
  exists G M,
    _calltrace_to_callgraph
      [(Some "main", Some "f"); (Some "f", Some "g"); (Some "main", Some "g")]
    = Ok G
    /\ fst (graph_to_adjacency_matrix true G) = Ok (_node G, M)
    /\ (forall i, (i < number_of_nodes G)%nat ->
          row_sum M i
          = Z.of_nat
              (calls_from (nth i (_node G) "")
                 [(Some "main", Some "f"); (Some "f", Some "g");
                  (Some "main", Some "g")]))
    /\ (forall j, (j < number_of_nodes G)%nat ->
          col_sum M j
          = Z.of_nat
              (calls_to (nth j (_node G) "")
                 [(Some "main", Some "f"); (Some "f", Some "g");
                  (Some "main", Some "g")])).
Proof.
  apply (calltrace_matrix_marginals
           [(Some "main", Some "f"); (Some "f", Some "g");
            (Some "main", Some "g")]).
  simpl. discriminate.
Defined.
